(** * markdown-concatenator: the scanner and the assembler of [src/index.ts]

    A shallow embedding of [findMarkdownRecursive] and [run].  JavaScript
    strings are modelled as [string], the number a comparator returns as [Z],
    the file system and the process as explicit parameters.  Paths follow the
    POSIX flavour of Node's [path] module ([path.sep] is "/"). *)

From Stdlib Require Import String Ascii List ZArith Lia Bool Arith Permutation.
Import ListNotations.

Local Open Scope string_scope.
Local Open Scope list_scope.

(** String concatenation, the [+] of JavaScript on strings; [++] is kept for
    lists. *)
Infix "+++" := String.append (right associativity, at level 60).

(** ** JavaScript string methods used by the program *)

Module Js.

(** The line feed of the template literals. *)
Definition LF : string := String (ascii_of_nat 10) EmptyString.

(** [s.startsWith(p)]. *)
Fixpoint startsWith (s p : string) {struct p} : bool :=
  match p with
  | EmptyString => true
  | String c p' =>
      match s with
      | EmptyString => false
      | String d s' => Ascii.eqb d c && startsWith s' p'
      end
  end.

(** [s.endsWith(suffix)]. *)
Definition endsWith (s suffix : string) : bool :=
  let n := String.length s in
  let m := String.length suffix in
  if Nat.leb m n then String.eqb (substring (n - m) m s) suffix else false.

(** [toLowerCase] on the letters A-Z.  The program only tests the
    lowered name with [endsWith(".md")], and no character outside A-Z
    lowers to one of '.', 'm', 'd', so the other case mappings of Unicode
    do not change that test. *)
Definition lowerChar (c : ascii) : ascii :=
  let n := nat_of_ascii c in
  if Nat.leb 65 n && Nat.leb n 90 then ascii_of_nat (n + 32) else c.

Fixpoint toLowerCase (s : string) : string :=
  match s with
  | EmptyString => EmptyString
  | String c s' => String (lowerChar c) (toLowerCase s')
  end.

(** [s.split(sep)] for a separator of one character. *)
Fixpoint split (sep : ascii) (s : string) : list string :=
  match s with
  | EmptyString => [EmptyString]
  | String c s' =>
      if Ascii.eqb c sep then EmptyString :: split sep s'
      else match split sep s' with
           | [] => [String c EmptyString]
           | h :: t => String c h :: t
           end
  end.

(** [parts.join(sep)]. *)
Definition join (sep : string) (parts : list string) : string :=
  String.concat sep parts.

(** [Array.prototype.sort(compare)]: the sort is stable, and for a
    consistent comparator every stable sort returns the same array, here
    computed by insertion.  The comparator returns a number. *)
Fixpoint sortInsert {A} (compare : A -> A -> Z) (x : A) (l : list A) : list A :=
  match l with
  | [] => [x]
  | y :: l' =>
      if (compare x y <=? 0)%Z then x :: y :: l'
      else y :: sortInsert compare x l'
  end.

Definition sort {A} (compare : A -> A -> Z) (l : list A) : list A :=
  fold_right (sortInsert compare) [] l.

End Js.

(** ** Node's [path] module, POSIX flavour *)

Module Path.

Definition sepChar : ascii := "/"%char.
Definition sep : string := "/".

Definition isAbsolute (p : string) : bool :=
  match p with
  | String c _ => Ascii.eqb c sepChar
  | EmptyString => false
  end.

Fixpoint lastChar (p : string) : option ascii :=
  match p with
  | EmptyString => None
  | String c EmptyString => Some c
  | String _ p' => lastChar p'
  end.

Definition hasTrailingSep (p : string) : bool :=
  match lastChar p with
  | Some c => Ascii.eqb c sepChar
  | None => false
  end.

(** [normalizeString]: the segments of the path are read from left to
    right onto a stack [res] (kept reversed); an empty segment and "." are
    skipped, ".." removes the segment on top unless the stack is empty or
    its top is "..", in which case ".." is kept when [allowAboveRoot]. *)
Fixpoint normalizeSegments (allowAboveRoot : bool) (segs res : list string)
  : list string :=
  match segs with
  | [] => rev res
  | s :: segs' =>
      if String.eqb s "" || String.eqb s "." then
        normalizeSegments allowAboveRoot segs' res
      else if String.eqb s ".." then
        match res with
        | top :: res' =>
            if String.eqb top ".." then
              normalizeSegments allowAboveRoot segs'
                (if allowAboveRoot then ".." :: res else res)
            else normalizeSegments allowAboveRoot segs' res'
        | [] =>
            normalizeSegments allowAboveRoot segs'
              (if allowAboveRoot then [".."] else [])
        end
      else normalizeSegments allowAboveRoot segs' (s :: res)
  end.

Definition normalizeString (p : string) (allowAboveRoot : bool) : string :=
  Js.join sep (normalizeSegments allowAboveRoot (Js.split sepChar p) []).

(** [path.normalize(p)]. *)
Definition normalize (p : string) : string :=
  if String.eqb p "" then "."
  else
    let isAbs := isAbsolute p in
    let trailing := hasTrailingSep p in
    let q := normalizeString p (negb isAbs) in
    if String.eqb q "" then
      (if isAbs then "/" else if trailing then "./" else ".")
    else
      let q := if trailing then q +++ "/" else q in
      if isAbs then "/" +++ q else q.

(** [path.join(a, b)]: the non-empty arguments joined by "/", normalized. *)
Definition join (a b : string) : string :=
  match String.eqb a "", String.eqb b "" with
  | true, true => "."
  | true, false => normalize b
  | false, true => normalize a
  | false, false => normalize (a +++ "/" +++ b)
  end.

(** [path.resolve(p)] where [cwd] is [process.cwd()], an absolute path. *)
Definition resolve (cwd p : string) : string :=
  let full := if isAbsolute p then p
              else if String.eqb p "" then cwd
              else cwd +++ "/" +++ p in
  "/" +++ normalizeString full false.

Fixpoint hasNonSep (s : string) : bool :=
  match s with
  | EmptyString => false
  | String c s' => negb (Ascii.eqb c sepChar) || hasNonSep s'
  end.

(** The index [end] that [path.dirname] searches from the right, counted
    in the path without its first character: the last separator that has
    a character other than the separator somewhere after it. *)
Fixpoint dirnameEnd (t : string) : option nat :=
  match t with
  | EmptyString => None
  | String c t' =>
      match dirnameEnd t' with
      | Some k => Some (S k)
      | None => if Ascii.eqb c sepChar && hasNonSep t' then Some 0 else None
      end
  end.

(** [path.dirname(p)]. *)
Definition dirname (p : string) : string :=
  match p with
  | EmptyString => "."
  | String c0 t =>
      let hasRoot := Ascii.eqb c0 sepChar in
      match dirnameEnd t with
      | None => if hasRoot then "/" else "."
      | Some k =>
          if hasRoot && Nat.eqb k 0 then "//"
          else substring 0 (S k) p
      end
  end.

(** The segments of a resolved path: "/a/b" has the segments a, b and "/"
    has none. *)
Definition segments (p : string) : list string :=
  filter (fun s => negb (String.eqb s "")) (Js.split sepChar p).

Fixpoint stripCommon (from to : list string) : list string * list string :=
  match from, to with
  | f :: from', t :: to' =>
      if String.eqb f t then stripCommon from' to' else (from, to)
  | _, _ => (from, to)
  end.

(** [path.relative(from, to)]: both paths are resolved, the segments they
    share at the front are dropped, and the result climbs with ".." out of
    what is left of [from] and then descends along what is left of [to]. *)
Definition relative (cwd from to : string) : string :=
  let from := resolve cwd from in
  let to := resolve cwd to in
  let '(up, down) := stripCommon (segments from) (segments to) in
  Js.join sep (map (fun _ => "..") up ++ down).

End Path.

(** ** The data of the program *)

(** What completes an [await]: a value, or a rejection that the caller
    does not catch.  [OutOfFuel] belongs to the model only: the recursion of
    the scanner is bounded by a [fuel] that a finite tree never uses up. *)
Inductive outcome (A : Type) : Type :=
| Ok (a : A)
| Throw
| OutOfFuel.
Arguments Ok {A} a.
Arguments Throw {A}.
Arguments OutOfFuel {A}.

(** A [fs.Dirent] as [readdir] returns it with [withFileTypes]: the type is
    the one of the entry itself, so a symbolic link is neither a directory
    nor a file, whatever it points to. *)
Module Dirent.
Inductive type := DIR | FILE | OTHER.
Record t := mk { name : string; kind : type }.
Definition isDirectory (d : t) : bool :=
  match kind d with DIR => true | _ => false end.
Definition isFile (d : t) : bool :=
  match kind d with FILE => true | _ => false end.
End Dirent.

(** [interface FileInfo]. *)
Record FileInfo := mkFileInfo {
  fullPath : string;
  relativePath : string;
  isDirectory : bool;
  name : string
}.

Inductive StatResult :=
| StatDirectory
| StatOther          (* exists, [isDirectory()] is false *)
| StatENOENT
| StatFailure.       (* any other error of [fs.stat] *)

(** The part of [fs/promises] the program calls.  [None] is a rejected
    promise; [writeFile] tells whether the write succeeded. *)
Record FileSystem := {
  readdir : string -> option (list Dirent.t);
  readFile : string -> option string;
  stat : string -> StatResult;
  writeFile : string -> string -> bool
}.

(** What the process does to the outside, in order. *)
Inductive Effect :=
| ConsoleLog (msg : string)
| ConsoleWarn (msg : string)
| ConsoleError (msg : string)
| WriteFile (path data : string).

Inductive Termination :=
| Returned               (* [run] ran to its end *)
| Exited (code : Z).     (* [process.exit(code)] *)

(** ** Configuration *)

Definition OUTPUT_FILENAME : string := "concatenated_output.md".
Definition DIR_HEADER_PREFIX : string := "# Directory:".
Definition FILE_HEADER_PREFIX : string := "## File:".

(** The fragments that [run] pushes onto [outputContent]. *)
Definition dirHeader (p : string) : string :=
  DIR_HEADER_PREFIX +++ " " +++ p +++ Js.LF +++ Js.LF.
Definition fileHeader (n : string) : string :=
  FILE_HEADER_PREFIX +++ " " +++ n +++ Js.LF +++ Js.LF.
Definition separator : string :=
  Js.LF +++ Js.LF +++ "---" +++ Js.LF +++ Js.LF.
Definition readErrorText (n : string) : string :=
  "*Error reading file " +++ n +++ "*" +++ Js.LF +++ Js.LF +++ "---" +++ Js.LF +++ Js.LF.

(** The state of the loop of [run] over [fileInfos]; [warned] collects the
    paths passed to [console.warn]. *)
Record AssemblerState := mkState {
  outputContent : list string;
  lastProcessedDirRelative : string;
  warned : list string
}.

Section Program.

(** [String.prototype.localeCompare] of the host, [process.cwd()] and the
    file system. *)
Variable localeCompare : string -> string -> Z.
Variable cwd : string.
Variable fs : FileSystem.

(** *** [findMarkdownRecursive] *)

(** The comparator passed to [dirents.sort]. *)
Definition compareDirents (a b : Dirent.t) : Z :=
  if Dirent.isDirectory a && negb (Dirent.isDirectory b) then (-1)%Z
  else if negb (Dirent.isDirectory a) && Dirent.isDirectory b then 1%Z
  else localeCompare (Dirent.name a) (Dirent.name b).

(** The body of [for (const dirent of dirents)]; [recurse] is the
    recursive call. *)
Definition visit (recurse : string -> outcome (list FileInfo))
    (dirPath rootDir : string) (dirent : Dirent.t) (results : list FileInfo)
  : outcome (list FileInfo) :=
  let fullPath := Path.join dirPath (Dirent.name dirent) in
  let relativePath := Path.relative cwd rootDir fullPath in
  if Dirent.isDirectory dirent then
    let results :=
      results ++ [mkFileInfo fullPath relativePath true (Dirent.name dirent)] in
    match recurse fullPath with
    | Ok subResults => Ok (results ++ subResults)
    | Throw => Throw
    | OutOfFuel => OutOfFuel
    end
  else if Dirent.isFile dirent
          && Js.endsWith (Js.toLowerCase (Dirent.name dirent)) ".md" then
    Ok (results ++ [mkFileInfo fullPath relativePath false (Dirent.name dirent)])
  else Ok results.

Fixpoint forDirents (body : Dirent.t -> list FileInfo -> outcome (list FileInfo))
    (dirents : list Dirent.t) (results : list FileInfo)
  : outcome (list FileInfo) :=
  match dirents with
  | [] => Ok results
  | dirent :: rest =>
      match body dirent results with
      | Ok results' => forDirents body rest results'
      | Throw => Throw
      | OutOfFuel => OutOfFuel
      end
  end.

Fixpoint findMarkdownRecursive (fuel : nat) (dirPath rootDir : string)
  : outcome (list FileInfo) :=
  match fuel with
  | O => OutOfFuel
  | S fuel' =>
      match readdir fs dirPath with
      | None => Throw
      | Some dirents =>
          let dirents := Js.sort compareDirents dirents in
          forDirents
            (visit (fun sub => findMarkdownRecursive fuel' sub rootDir)
               dirPath rootDir)
            dirents []
      end
  end.

(** *** The loop of [run] over [fileInfos] *)

Definition push (st : AssemblerState) (fragment : string) : AssemblerState :=
  mkState (outputContent st ++ [fragment]) (lastProcessedDirRelative st)
    (warned st).

Definition setLast (st : AssemblerState) (dir : string) : AssemblerState :=
  mkState (outputContent st) dir (warned st).

(** The body of [for (const part of parentDirParts)]: the state is
    [cumulativePath] and the output. *)
Definition addParentHeader (part : string) (acc : string * AssemblerState)
  : string * AssemblerState :=
  let '(cumulativePath, st) := acc in
  let cumulativePath :=
    if String.eqb cumulativePath "" then part
    else Path.join cumulativePath part in
  if negb (Js.startsWith (lastProcessedDirRelative st) cumulativePath)
  then (cumulativePath, push st (dirHeader cumulativePath))
  else (cumulativePath, st).

Definition addParentHeaders (parentDirParts : list string)
    (st : AssemblerState) : AssemblerState :=
  snd (fold_left (fun acc part => addParentHeader part acc)
         parentDirParts ("", st)).

(** The first [if ... else if] of the loop body: the directory header. *)
Definition directoryHeaders (info : FileInfo) (st : AssemblerState)
  : AssemblerState :=
  let currentDirRelative := Path.dirname (relativePath info) in
  if isDirectory info
     && negb (String.eqb (relativePath info) (lastProcessedDirRelative st))
  then
    setLast (push st (dirHeader (relativePath info))) (relativePath info)
  else if negb (isDirectory info)
          && negb (String.eqb currentDirRelative (lastProcessedDirRelative st))
          && negb (String.eqb currentDirRelative ".")
  then
    let parentDirParts := Js.split Path.sepChar currentDirRelative in
    setLast (addParentHeaders parentDirParts st) currentDirRelative
  else st.

(** The second [if] of the loop body: the file header and the content. *)
Definition fileSection (info : FileInfo) (st : AssemblerState)
  : AssemblerState :=
  if negb (isDirectory info) then
    let st := push st (fileHeader (name info)) in
    match readFile fs (fullPath info) with
    | Some content => push (push st content) separator
    | None =>
        let st := mkState (outputContent st) (lastProcessedDirRelative st)
                    (warned st ++ [fullPath info]) in
        push st (readErrorText (name info))
    end
  else st.

(** The body of [for (const info of fileInfos)]. *)
Definition processInfo (st : AssemblerState) (info : FileInfo)
  : AssemblerState :=
  fileSection info (directoryHeaders info st).

Definition initialState : AssemblerState := mkState [] "." [].

Definition assemble (fileInfos : list FileInfo) : AssemblerState :=
  fold_left processInfo fileInfos initialState.

(** [outputContent.join("")]. *)
Definition finalOutput (st : AssemblerState) : string :=
  Js.join "" (outputContent st).

(** *** [run] *)

Definition warning (p : string) : Effect :=
  ConsoleWarn ("Warning: Could not read file '" +++ p +++ "':").

(** [args] is [process.argv.slice(2)].  The result is [None] only when
    the scanner ran out of fuel. *)
Definition run (fuel : nat) (args : list string)
  : option (list Effect * Termination) :=
  match args with
  | [arg] =>
      let inputDirPath := Path.resolve cwd arg in
      match stat fs inputDirPath with
      | StatOther =>
          Some ([ConsoleError
                   ("Error: '" +++ inputDirPath +++ "' is not a directory.")],
                Exited 1)
      | StatENOENT =>
          Some ([ConsoleError
                   ("Error: Directory '" +++ inputDirPath +++ "' not found.")],
                Exited 1)
      | StatFailure =>
          Some ([ConsoleError
                   ("Error accessing directory '" +++ inputDirPath +++ "':")],
                Exited 1)
      | StatDirectory =>
          let scanning := ConsoleLog ("Scanning directory: " +++ inputDirPath) in
          let failed := ConsoleError "An error occurred during processing:" in
          match findMarkdownRecursive fuel inputDirPath inputDirPath with
          | OutOfFuel => None
          | Throw => Some ([scanning; failed], Exited 1)
          | Ok fileInfos =>
              let st := assemble fileInfos in
              let outputFilePath := Path.join cwd OUTPUT_FILENAME in
              let warnings := map warning (warned st) in
              if writeFile fs outputFilePath (finalOutput st) then
                Some (scanning :: warnings ++
                      [WriteFile outputFilePath (finalOutput st);
                       ConsoleLog
                         ("Successfully concatenated markdown files into: "
                          +++ outputFilePath)],
                      Returned)
              else Some (scanning :: warnings ++ [failed], Exited 1)
          end
      end
  | _ =>
      Some ([ConsoleError "Usage: node dist/index.js <directory_path>"],
            Exited 1)
  end.

End Program.

(** ** The collation behind [localeCompare]

    Node compares with ICU.  For the locales that do not tailor the Latin
    script, [a.localeCompare(b)] is the comparison of the sort keys of the
    root collation of CLDR at its default strength: the primary weights of
    the characters decide first (punctuation before digits before letters, a
    letter and its capital weighing the same), and among strings that agree
    there the first difference of case decides, the small letter first.
    The model below covers the printable ASCII characters; control
    characters weigh nothing, as in ICU, and a byte above 127 is ranked
    after the letters. *)
Module Collation.

(** Printable ASCII that is neither digit nor letter, in the order of the
    root collation. *)
Definition punctuation : string :=
  " _-,;:!?.'" +++ String (ascii_of_nat 34) "()[]{}@*/\&#%`^+<=>|~$".

Fixpoint indexOf (c : ascii) (s : string) : option nat :=
  match s with
  | EmptyString => None
  | String d s' =>
      if Ascii.eqb c d then Some 0
      else match indexOf c s' with Some i => Some (S i) | None => None end
  end.

Definition isUpper (n : nat) : bool := Nat.leb 65 n && Nat.leb n 90.
Definition isLower (n : nat) : bool := Nat.leb 97 n && Nat.leb n 122.
Definition isDigit (n : nat) : bool := Nat.leb 48 n && Nat.leb n 57.

(** The primary weight of a character; [0] is "ignored". *)
Definition primary (c : ascii) : nat :=
  let n := nat_of_ascii c in
  if isUpper n then 100 + (n - 65)
  else if isLower n then 100 + (n - 97)
  else if isDigit n then 50 + (n - 48)
  else if Nat.leb 128 n then 200 + n
  else if (Nat.leb 9 n && Nat.leb n 13) then n - 8
  else match indexOf c punctuation with
       | Some i => 6 + i
       | None => 0
       end.

(** The weight of the case: [1] is the common weight, a capital weighs
    more. *)
Definition tertiary (c : ascii) : nat :=
  if isUpper (nat_of_ascii c) then 2 else 1.

Fixpoint weights (s : string) : list (nat * nat) :=
  match s with
  | EmptyString => []
  | String c s' =>
      if Nat.eqb (primary c) 0 then weights s'
      else (primary c, tertiary c) :: weights s'
  end.

(** The sort key: the primary weights, a separator below every weight,
    the case weights. *)
Definition sortKey (s : string) : list nat :=
  map fst (weights s) ++ [0] ++ map snd (weights s).

Fixpoint compareKeys (k1 k2 : list nat) : Z :=
  match k1, k2 with
  | [], [] => 0
  | [], _ :: _ => -1
  | _ :: _, [] => 1
  | a :: k1', b :: k2' =>
      if Nat.ltb a b then -1
      else if Nat.ltb b a then 1
      else compareKeys k1' k2'
  end.

Definition localeCompare (a b : string) : Z :=
  compareKeys (sortKey a) (sortKey b).

End Collation.

(** The case-sensitive lexical comparison of the specification: UTF-16 code
    units one by one, which is what [<] does on JavaScript strings and puts
    "B" before "a". *)
Definition codeUnitCompare (a b : string) : Z :=
  match String.compare a b with
  | Lt => (-1)%Z
  | Eq => 0%Z
  | Gt => 1%Z
  end.

(** ** File systems for the examples *)

Fixpoint lookup {A} (table : list (string * A)) (p : string) : option A :=
  match table with
  | [] => None
  | (q, a) :: table' => if String.eqb p q then Some a else lookup table' p
  end.

(** A file system given by the listing of each directory and the content
    of each readable file; every write succeeds. *)
Definition fileSystemOf (dirs : list (string * list Dirent.t))
    (files : list (string * string)) : FileSystem :=
  {| readdir := lookup dirs;
     readFile := lookup files;
     stat := fun p =>
       match lookup dirs p, lookup files p with
       | Some _, _ => StatDirectory
       | None, Some _ => StatOther
       | None, None => StatENOENT
       end;
     writeFile := fun _ _ => true |}.

Definition dir (n : string) : Dirent.t := Dirent.mk n Dirent.DIR.
Definition file (n : string) : Dirent.t := Dirent.mk n Dirent.FILE.
Definition symlink (n : string) : Dirent.t := Dirent.mk n Dirent.OTHER.

(** The root holds a.md and sub/, which holds b.md. *)
Definition fsSub : FileSystem :=
  fileSystemOf
    [("/r", [file "a.md"; dir "sub"]); ("/r/sub", [file "b.md"])]
    [("/r/a.md", "A"); ("/r/sub/b.md", "B")].

(** The root holds the files B.md and a.md. *)
Definition fsCase : FileSystem :=
  fileSystemOf [("/r", [file "B.md"; file "a.md"])]
               [("/r/B.md", "big"); ("/r/a.md", "small")].

(** The root holds the directory e, which is empty. *)
Definition fsEmptyDir : FileSystem :=
  fileSystemOf [("/r", [dir "e"]); ("/r/e", [])] [].

(** The root holds a/, which holds b/ and y.md; b/ holds x.md. *)
Definition fsNested : FileSystem :=
  fileSystemOf
    [("/r", [dir "a"]); ("/r/a", [file "y.md"; dir "b"]);
     ("/r/a/b", [file "x.md"])]
    [("/r/a/y.md", "Y"); ("/r/a/b/x.md", "X")].

(** The root holds x/, which holds y/, which holds z.md; z.md cannot be
    read.  A symbolic link named link.md lies next to x/. *)
Definition fsDeep : FileSystem :=
  fileSystemOf
    [("/r", [symlink "link.md"; dir "x"]); ("/r/x", [dir "y"]);
     ("/r/x/y", [file "z.md"; file "notes.txt"])]
    [].

(** The root holds nothing that the scanner keeps. *)
Definition fsBare : FileSystem :=
  fileSystemOf [("/r", [file "notes.txt"; symlink "s.md"])] [].


(** The tree of [fsSub], listed in the other order. *)
Definition fsSubReversed : FileSystem :=
  fileSystemOf
    [("/r", [dir "sub"; file "a.md"]); ("/r/sub", [file "b.md"])]
    [("/r/a.md", "A"); ("/r/sub/b.md", "B")].

(** ** Vocabulary of the properties *)

(** A name that a directory can list: not empty, not "." or "..", and
    without the separator. *)
Fixpoint noSep (s : string) : bool :=
  match s with
  | EmptyString => true
  | String c s' => negb (Ascii.eqb c Path.sepChar) && noSep s'
  end.

Definition validName (n : string) : bool :=
  negb (String.eqb n "") && negb (String.eqb n ".")
  && negb (String.eqb n "..") && noSep n.

Definition validNames (segs : list string) : Prop :=
  Forall (fun n => validName n = true) segs.

(** The absolute path with the given segments; [absolute []] is "/". *)
Definition absolute (segs : list string) : string :=
  "/" +++ Js.join "/" segs.

(** Every listing holds valid names, each once. *)
Definition wellFormed (fs : FileSystem) : Prop :=
  forall p dirents, readdir fs p = Some dirents ->
    NoDup (map Dirent.name dirents)
    /\ validNames (map Dirent.name dirents).

(** The comparator is consistent, as [Array.prototype.sort] asks. *)
Definition consistent (compare : string -> string -> Z) : Prop :=
  (forall a b, Z.sgn (compare b a) = (- Z.sgn (compare a b))%Z)
  /\ (forall a b c, (compare a b <= 0)%Z -> (compare b c <= 0)%Z ->
                    (compare a c <= 0)%Z).

(** [x] occurs before [y] in [l]. *)
Definition precedes {A} (x y : A) (l : list A) : Prop :=
  exists pre mid post, l = pre ++ x :: mid ++ y :: post.

(** [l] is sorted: every element compares as at most every later one. *)
Definition sortedBy {A} (cmp : A -> A -> Z) (l : list A) : Prop :=
  forall pre x mid y post, l = pre ++ x :: mid ++ y :: post -> (cmp x y <= 0)%Z.

(** The test on a file name. *)
Definition qualifies (n : string) : bool :=
  Js.endsWith (Js.toLowerCase n) ".md".

(** A child that the scanner keeps. *)
Definition kept (d : Dirent.t) : bool :=
  Dirent.isDirectory d || (Dirent.isFile d && qualifies (Dirent.name d)).

(** [d1] comes before [d2] among the children of one directory:
    directories first, then by [compare] on the names. *)
Definition siblingBefore (compare : string -> string -> Z)
    (d1 d2 : Dirent.t) : Prop :=
  (Dirent.isDirectory d1 = true /\ Dirent.isDirectory d2 = false)
  \/ (Dirent.isDirectory d1 = Dirent.isDirectory d2
      /\ (compare (Dirent.name d1) (Dirent.name d2) < 0)%Z).

(** [e] lies below the directory whose relative path is [p]. *)
Definition below (p : string) (e : FileInfo) : bool :=
  Js.startsWith (relativePath e) (p +++ "/").

(** The ancestor prefixes of a directory path, from the shallowest to the
    deepest, as the specification words them. *)
Definition ancestorPrefixes (parentDir : string) : list string :=
  let segs := Js.split Path.sepChar parentDir in
  map (fun k => Js.join "/" (firstn k segs)) (seq 1 (List.length segs)).

(** The headers of the reconciliation, as the specification words them:
    one for each prefix that [last] does not start with. *)
Definition reconciliationHeaders (last parentDir : string) : list string :=
  map dirHeader
    (filter (fun prefix => negb (Js.startsWith last prefix))
       (ancestorPrefixes parentDir)).

Section Vocabulary.

Variable localeCompare : string -> string -> Z.
Variable cwd : string.
Variable fs : FileSystem.

(** The entry that [visit] pushes for a child it keeps. *)
Definition entryOf (dirPath rootDir : string) (d : Dirent.t) : FileInfo :=
  let fullPath := Path.join dirPath (Dirent.name d) in
  mkFileInfo fullPath (Path.relative cwd rootDir fullPath)
    (Dirent.isDirectory d) (Dirent.name d).

(** The directories that a scan from [rootDir] visits. *)
Inductive visited (rootDir : string) : string -> Prop :=
| visited_root : visited rootDir rootDir
| visited_child : forall dirPath dirents d,
    visited rootDir dirPath ->
    readdir fs dirPath = Some dirents ->
    In d dirents ->
    Dirent.isDirectory d = true ->
    visited rootDir (Path.join dirPath (Dirent.name d)).

(** The tree below [dirPath] has at most [n] levels of directories. *)
Fixpoint depthWithin (n : nat) (dirPath : string) : Prop :=
  match n with
  | O => False
  | S n' =>
      match readdir fs dirPath with
      | None => True
      | Some dirents =>
          forall d, In d dirents -> Dirent.isDirectory d = true ->
            depthWithin n' (Path.join dirPath (Dirent.name d))
      end
  end.

(** The values of [lastProcessedDirRelative] during the pass: the one
    before the first entry, then the one after each entry. *)
Fixpoint lastTrace (st : AssemblerState) (fileInfos : list FileInfo)
  : list string :=
  lastProcessedDirRelative st ::
  match fileInfos with
  | [] => []
  | info :: rest => lastTrace (processInfo fs st info) rest
  end.

End Vocabulary.

(** The children that the scanner keeps appear in the list in the order
    [siblingBefore compare], for every directory that is scanned. *)
Definition siblingsOrdered (compare localeCompare : string -> string -> Z)
    (cwd : string) (fs : FileSystem) : Prop :=
  forall fuel dirPath rootDir dirents results d1 d2,
    readdir fs dirPath = Some dirents ->
    findMarkdownRecursive localeCompare cwd fs fuel dirPath rootDir = Ok results ->
    In d1 dirents -> In d2 dirents -> kept d1 = true -> kept d2 = true ->
    siblingBefore compare d1 d2 ->
    precedes (entryOf cwd dirPath rootDir d1) (entryOf cwd dirPath rootDir d2)
      results.

(** The relative path of [e] goes through the child [n] of the directory
    whose segments below the root are [segs]. *)
Definition under (segs : list string) (n : string) (e : FileInfo) : Prop :=
  exists more,
    validNames (n :: more)
    /\ relativePath e = Js.join "/" (segs ++ n :: more).

(** A value that the trace has left does not come back. *)
Definition neverReturns (trace : list string) : Prop :=
  forall pre v mid post,
    trace = pre ++ v :: mid ++ v :: post -> Forall (eq v) mid.

(** The headers as the specification words them: a sub-directory of a visited
    directory whose scan lists no document has its entry in the list of the
    scanner and no directory header in the output. *)
Definition emptyDirectoriesSilent (localeCompare : string -> string -> Z)
    (cwd : string) (fs : FileSystem) (rootDir : string) : Prop :=
  forall fuel fileInfos p dirents d f sub,
    findMarkdownRecursive localeCompare cwd fs fuel rootDir rootDir = Ok fileInfos ->
    visited fs rootDir p ->
    readdir fs p = Some dirents -> In d dirents ->
    Dirent.isDirectory d = true ->
    findMarkdownRecursive localeCompare cwd fs f
      (Path.join p (Dirent.name d)) rootDir = Ok sub ->
    Forall (fun e => isDirectory e = true) sub ->
    In (entryOf cwd p rootDir d) fileInfos
    /\ ~ In (dirHeader (relativePath (entryOf cwd p rootDir d)))
           (outputContent (assemble fs fileInfos)).

(** A document whose content cannot be read. *)
Definition unreadable (fs : FileSystem) (e : FileInfo) : bool :=
  negb (isDirectory e)
  && match readFile fs (fullPath e) with Some _ => false | None => true end.

(** What the loop of [run] pushes for an entry when the reconciliation
    loop adds nothing: the header of a directory, or the header of a file
    followed by its content and the separator, or by the error text. *)
Definition entryFragments (fs : FileSystem) (e : FileInfo) : list string :=
  if isDirectory e then [dirHeader (relativePath e)]
  else fileHeader (name e) ::
       match readFile fs (fullPath e) with
       | Some content => [content; separator]
       | None => [readErrorText (name e)]
       end.

(** Two file systems list the same children in every directory, in any
    order. *)
Definition sameListings (fs1 fs2 : FileSystem) : Prop :=
  forall p,
    match readdir fs1 p, readdir fs2 p with
    | Some l1, Some l2 => Permutation l1 l2
    | None, None => True
    | _, _ => False
    end.

(** No two names of one listing compare as equal. *)
Definition tieFree (compare : string -> string -> Z) (fs : FileSystem) : Prop :=
  forall p dirents d1 d2,
    readdir fs p = Some dirents -> In d1 dirents -> In d2 dirents ->
    compare (Dirent.name d1) (Dirent.name d2) = 0%Z ->
    Dirent.name d1 = Dirent.name d2.

(** The value of [lastProcessedDirRelative] that stands for the directory
    with the segments [segs] below the root. *)
Definition directoryPath (segs : list string) : string :=
  match segs with
  | [] => "."
  | _ => Js.join "/" segs
  end.

(** * Properties *)

Example dirname_nested : Path.dirname "x/y/z.md" = "x/y".
Proof. reflexivity. Qed.
Example dirname_top : Path.dirname "a.md" = ".".
Proof. reflexivity. Qed.
Example join_plain : Path.join "/r/x" "y" = "/r/x/y".
Proof. reflexivity. Qed.
Example join_root : Path.join "/" "y" = "/y".
Proof. reflexivity. Qed.
Example relative_below : Path.relative "/w" "/r" "/r/x/y" = "x/y".
Proof. reflexivity. Qed.
Example resolve_rel : Path.resolve "/home/u" "../docs/./n" = "/home/docs/n".
Proof. reflexivity. Qed.
Example split_path : Js.split "/" "x/y" = ["x"; "y"].
Proof. reflexivity. Qed.
Example ends_md : Js.endsWith (Js.toLowerCase "README.MD") ".md" = true.
Proof. reflexivity. Qed.

(** ** Strings *)

Lemma append_assoc (a b c : string) : (a +++ b) +++ c = a +++ b +++ c.
Proof. induction a as [|x a IH]; simpl; [reflexivity | now rewrite IH]. Qed.

Lemma append_empty_r (a : string) : a +++ "" = a.
Proof. induction a as [|x a IH]; simpl; [reflexivity | now rewrite IH]. Qed.

Lemma append_length (a b : string) :
  String.length (a +++ b) = String.length a + String.length b.
Proof. induction a as [|x a IH]; simpl; [reflexivity | now rewrite IH]. Qed.

Lemma substring_prefix (a b : string) :
  substring 0 (String.length a) (a +++ b) = a.
Proof.
  induction a as [|x a IH]; simpl.
  - destruct b; reflexivity.
  - now rewrite IH.
Qed.

Lemma startsWith_append (a b : string) : Js.startsWith (a +++ b) a = true.
Proof.
  induction a as [|x a IH]; simpl; [reflexivity|].
  now rewrite Ascii.eqb_refl, IH.
Qed.

Lemma startsWith_refl (a : string) : Js.startsWith a a = true.
Proof. rewrite <- (append_empty_r a) at 1. apply startsWith_append. Qed.

Lemma startsWith_cancel (a b c : string) :
  Js.startsWith (a +++ b) (a +++ c) = Js.startsWith b c.
Proof.
  induction a as [|x a IH]; simpl; [reflexivity|].
  now rewrite Ascii.eqb_refl, IH.
Qed.

Lemma startsWith_longer (a b : string) :
  String.length a < String.length b -> Js.startsWith a b = false.
Proof.
  revert a; induction b as [|y b IH]; intros a H; simpl in *; [lia|].
  destruct a as [|x a]; [reflexivity|]. simpl in H.
  rewrite IH by lia. apply andb_false_r.
Qed.

Lemma noSep_append (a b : string) :
  noSep (a +++ b) = noSep a && noSep b.
Proof.
  induction a as [|x a IH]; simpl; [reflexivity|].
  now rewrite IH, andb_assoc.
Qed.

Lemma split_noSep (s : string) :
  noSep s = true -> Js.split Path.sepChar s = [s].
Proof.
  induction s as [|c s IH]; simpl; [reflexivity|].
  intros H. apply andb_prop in H as [Hc Hs].
  apply negb_true_iff in Hc. rewrite Hc, (IH Hs). reflexivity.
Qed.

Lemma split_sep (a b : string) :
  noSep a = true ->
  Js.split Path.sepChar (a +++ "/" +++ b) = a :: Js.split Path.sepChar b.
Proof.
  change (a +++ "/" +++ b) with (a +++ String Path.sepChar b).
  induction a as [|c a IH]; simpl; intros H; [reflexivity|].
  apply andb_prop in H as [Hc Ha].
  apply negb_true_iff in Hc. rewrite Hc, (IH Ha). reflexivity.
Qed.

Lemma join_cons (a b : string) (l : list string) :
  Js.join "/" (a :: b :: l) = a +++ "/" +++ Js.join "/" (b :: l).
Proof. reflexivity. Qed.

Lemma join_snoc (l : list string) (n : string) :
  l <> [] -> Js.join "/" (l ++ [n]) = Js.join "/" l +++ "/" +++ n.
Proof.
  induction l as [|a l IH]; intros H; [congruence|].
  destruct l as [|b l]; [reflexivity|].
  change ((a :: b :: l) ++ [n]) with (a :: b :: (l ++ [n])).
  rewrite !join_cons, append_assoc. simpl. f_equal. f_equal.
  apply (IH ltac:(discriminate)).
Qed.

Lemma join_app (l m : list string) :
  l <> [] -> m <> [] ->
  Js.join "/" (l ++ m) = Js.join "/" l +++ "/" +++ Js.join "/" m.
Proof.
  induction l as [|a l IH]; intros Hl Hm; [congruence|].
  destruct l as [|b l].
  - destruct m as [|c m]; [congruence|]. reflexivity.
  - change ((a :: b :: l) ++ m) with (a :: b :: (l ++ m)).
    rewrite !join_cons, append_assoc. simpl. f_equal. f_equal.
    apply IH; [discriminate | assumption].
Qed.

Lemma validName_noSep (n : string) : validName n = true -> noSep n = true.
Proof. unfold validName. intros H. now apply andb_prop in H as [_ H]. Qed.

Lemma validName_nonempty (n : string) : validName n = true -> n <> "".
Proof.
  unfold validName. intros H E. subst n. discriminate.
Qed.

Lemma split_join (segs : list string) :
  Forall (fun n => noSep n = true) segs -> segs <> [] ->
  Js.split Path.sepChar (Js.join "/" segs) = segs.
Proof.
  induction segs as [|a l IH]; intros H Hne; [congruence|].
  inversion H as [|? ? Ha Hl]; subst.
  destruct l as [|b l].
  - simpl. now apply split_noSep.
  - rewrite join_cons, split_sep by assumption.
    f_equal. apply IH; [assumption | discriminate].
Qed.

Lemma validNames_noSep (segs : list string) :
  validNames segs -> Forall (fun n => noSep n = true) segs.
Proof.
  intros H. eapply Forall_impl; [|exact H]. intros; now apply validName_noSep.
Qed.

Lemma join_injective (l m : list string) :
  validNames l -> validNames m ->
  Js.join "/" l = Js.join "/" m -> l = m.
Proof.
  intros Hl Hm E.
  destruct l as [|a l], m as [|b m]; [reflexivity| | |].
  - exfalso. inversion Hm as [|? ? Hb _]; subst.
    destruct m; simpl in E; destruct b; discriminate.
  - exfalso. inversion Hl as [|? ? Ha _]; subst.
    destruct l; simpl in E; destruct a; discriminate.
  - rewrite <- (split_join (a :: l)), <- (split_join (b :: m)), E;
      auto using validNames_noSep; discriminate.
Qed.

(** ** Paths made of valid names *)

Lemma validName_inv (n : string) :
  validName n = true ->
  String.eqb n "" = false /\ String.eqb n "." = false
  /\ String.eqb n ".." = false /\ noSep n = true.
Proof.
  unfold validName. intros H.
  apply andb_prop in H as [H H4]. apply andb_prop in H as [H H3].
  apply andb_prop in H as [H1 H2].
  rewrite negb_true_iff in H1, H2, H3. auto.
Qed.

Lemma normalizeSegments_valid (b : bool) (l res : list string) :
  validNames l -> Path.normalizeSegments b l res = rev res ++ l.
Proof.
  revert res. induction l as [|s l IH]; intros res H; simpl.
  - now rewrite app_nil_r.
  - inversion H as [|? ? Hs Hl]; subst.
    destruct (validName_inv _ Hs) as (E1 & E2 & E3 & _).
    rewrite E1, E2, E3. simpl. rewrite (IH _ Hl). simpl.
    now rewrite <- app_assoc.
Qed.

Lemma join_nonempty (a : string) (l : list string) :
  a <> "" -> Js.join "/" (a :: l) <> "".
Proof.
  intros Ha. destruct a as [|c a]; [congruence|].
  destruct l; simpl; discriminate.
Qed.

Lemma join_valid_nonempty (l : list string) :
  validNames l -> l <> [] -> String.eqb (Js.join "/" l) "" = false.
Proof.
  intros H Hne. destruct l as [|a l]; [congruence|].
  inversion H; subst. apply String.eqb_neq, join_nonempty.
  now apply validName_nonempty.
Qed.

Lemma lastChar_append (a n : string) :
  n <> "" -> Path.lastChar (a +++ n) = Path.lastChar n.
Proof.
  intros Hn. induction a as [|c a IH]; [reflexivity|].
  simpl. rewrite IH. destruct (a +++ n) eqn:E; [|reflexivity].
  destruct a, n; simpl in E; congruence.
Qed.

Lemma noSep_lastChar (n : string) :
  noSep n = true -> Path.hasTrailingSep n = false.
Proof.
  unfold Path.hasTrailingSep.
  induction n as [|c n IH]; [reflexivity|]. simpl. intros H.
  apply andb_prop in H as [Hc Hn]. apply negb_true_iff in Hc.
  destruct n as [|d n]; [exact Hc|]. exact (IH Hn).
Qed.

Lemma hasTrailingSep_append (a n : string) :
  validName n = true -> Path.hasTrailingSep (a +++ n) = false.
Proof.
  intros H. unfold Path.hasTrailingSep.
  rewrite lastChar_append by now apply validName_nonempty.
  now apply noSep_lastChar, validName_noSep.
Qed.

Lemma validNames_snoc (l : list string) (n : string) :
  validNames l -> validName n = true -> validNames (l ++ [n]).
Proof. intros Hl Hn. apply Forall_app. split; [assumption | now constructor]. Qed.

Lemma validNames_app (l m : list string) :
  validNames l -> validNames m -> validNames (l ++ m).
Proof. intros. apply Forall_app. now split. Qed.

(** The segments that [normalizeString] reads in an absolute path. *)
Lemma normalizeString_absolute (segs : list string) :
  validNames segs ->
  Path.normalizeString (absolute segs) false = Js.join "/" segs.
Proof.
  intros H. unfold Path.normalizeString, absolute.
  change (Js.split Path.sepChar ("/" +++ Js.join "/" segs))
    with ("" :: Js.split Path.sepChar (Js.join "/" segs)).
  destruct segs as [|a l]; [reflexivity|].
  rewrite split_join by (auto using validNames_noSep; discriminate).
  change (Path.normalizeSegments false ("" :: a :: l) [])
    with (Path.normalizeSegments false (a :: l) []).
  now rewrite normalizeSegments_valid.
Qed.

Lemma absolute_snoc (segs : list string) (n : string) :
  absolute segs +++ "/" +++ n =
  match segs with
  | [] => "/" +++ absolute [n]
  | _ => absolute (segs ++ [n])
  end.
Proof.
  unfold absolute. destruct segs as [|a l]; [reflexivity|].
  rewrite join_snoc by discriminate. now rewrite append_assoc.
Qed.

Lemma join_absolute (segs : list string) (n : string) :
  validNames segs -> validName n = true ->
  Path.join (absolute segs) n = absolute (segs ++ [n]).
Proof.
  intros Hs Hn. unfold Path.join.
  change (String.eqb (absolute segs) "") with false.
  destruct (validName_inv _ Hn) as (E1 & _). rewrite E1.
  assert (Hq : Path.normalizeString (absolute segs +++ "/" +++ n) false
               = Js.join "/" (segs ++ [n])).
  { rewrite absolute_snoc. destruct segs as [|a l].
    - unfold Path.normalizeString.
      change (Js.split Path.sepChar ("/" +++ absolute [n]))
        with ("" :: Js.split Path.sepChar (absolute [n])).
      change (Path.normalizeSegments false
                ("" :: Js.split Path.sepChar (absolute [n])) [])
        with (Path.normalizeSegments false
                (Js.split Path.sepChar (absolute [n])) []).
      apply (normalizeString_absolute [n]). now constructor.
    - apply normalizeString_absolute. now apply validNames_snoc. }
  unfold Path.normalize.
  change (String.eqb (absolute segs +++ "/" +++ n) "") with false.
  change (Path.isAbsolute (absolute segs +++ "/" +++ n)) with true.
  cbv zeta. simpl negb. rewrite Hq.
  rewrite join_valid_nonempty
    by (auto using validNames_snoc; now destruct segs).
  replace (absolute segs +++ "/" +++ n)
    with ((absolute segs +++ "/") +++ n) by apply append_assoc.
  now rewrite hasTrailingSep_append.
Qed.

Lemma resolve_absolute (cwd : string) (segs : list string) :
  validNames segs -> Path.resolve cwd (absolute segs) = absolute segs.
Proof.
  intros H. unfold Path.resolve.
  change (Path.isAbsolute (absolute segs)) with true. cbv iota zeta.
  now rewrite normalizeString_absolute.
Qed.

Lemma segments_absolute (segs : list string) :
  validNames segs -> Path.segments (absolute segs) = segs.
Proof.
  intros H. unfold Path.segments, absolute.
  change (Js.split Path.sepChar ("/" +++ Js.join "/" segs))
    with ("" :: Js.split Path.sepChar (Js.join "/" segs)).
  destruct segs as [|a l]; [reflexivity|].
  rewrite split_join by (auto using validNames_noSep; discriminate).
  change (filter (fun s => negb (String.eqb s "")) ("" :: a :: l))
    with (filter (fun s => negb (String.eqb s "")) (a :: l)).
  apply forallb_filter_id, forallb_forall. intros x Hx.
  apply (proj1 (Forall_forall _ _) H) in Hx.
  apply validName_inv in Hx as (E & _). now rewrite E.
Qed.

Lemma stripCommon_prefix (l m : list string) :
  validNames l -> validNames m -> m <> [] ->
  Path.stripCommon l (l ++ m) = ([], m).
Proof.
  intros Hl _ Hm. induction l as [|a l IH]; simpl.
  - now destruct m.
  - rewrite String.eqb_refl. inversion Hl; subst. now apply IH.
Qed.

Lemma relative_absolute (cwd : string) (rsegs more : list string) :
  validNames rsegs -> validNames more -> more <> [] ->
  Path.relative cwd (absolute rsegs) (absolute (rsegs ++ more))
  = Js.join "/" more.
Proof.
  intros Hr Hm Hne. unfold Path.relative.
  rewrite !resolve_absolute, !segments_absolute, stripCommon_prefix;
    auto using validNames_app.
Qed.

Lemma hasNonSep_valid (n : string) : validName n = true -> Path.hasNonSep n = true.
Proof.
  intros H. destruct (validName_inv _ H) as (E & _ & _ & Hn).
  destruct n as [|c n]; [discriminate|]. simpl in *.
  apply andb_prop in Hn as [Hc _]. now rewrite Hc.
Qed.

Lemma dirnameEnd_noSep (n : string) : noSep n = true -> Path.dirnameEnd n = None.
Proof.
  induction n as [|c n IH]; [reflexivity|]. simpl. intros H.
  apply andb_prop in H as [Hc Hn]. rewrite (IH Hn).
  apply negb_true_iff in Hc. now rewrite Hc.
Qed.

Lemma dirnameEnd_sep (t n : string) :
  validName n = true ->
  Path.dirnameEnd (t +++ String Path.sepChar n) = Some (String.length t).
Proof.
  intros H. induction t as [|c t IH]; simpl.
  - rewrite dirnameEnd_noSep by now apply validName_noSep.
    now rewrite hasNonSep_valid.
  - now rewrite IH.
Qed.

Lemma dirname_name (n : string) : validName n = true -> Path.dirname n = ".".
Proof.
  intros H. destruct (validName_inv _ H) as (E & _ & _ & Hn).
  destruct n as [|c n]; [discriminate|]. simpl in Hn.
  apply andb_prop in Hn as [Hc Hn]. apply negb_true_iff in Hc.
  unfold Path.dirname. now rewrite (dirnameEnd_noSep _ Hn), Hc.
Qed.

Lemma dirname_child (p n : string) :
  p <> "" -> Path.isAbsolute p = false -> validName n = true ->
  Path.dirname (p +++ "/" +++ n) = p.
Proof.
  intros Hp Hrel Hn. destruct p as [|c t]; [congruence|].
  simpl in Hrel.
  change ((String c t) +++ "/" +++ n) with (String c (t +++ String Path.sepChar n)).
  unfold Path.dirname. rewrite (dirnameEnd_sep _ _ Hn), Hrel. cbv beta iota zeta.
  simpl andb. cbv iota.
  change (String c (t +++ String Path.sepChar n))
    with (String c t +++ String Path.sepChar n).
  change (S (String.length t)) with (String.length (String c t)).
  apply substring_prefix.
Qed.

Lemma join_relative_head (a : string) (l : list string) :
  validName a = true -> Path.isAbsolute (Js.join "/" (a :: l)) = false.
Proof.
  intros H. destruct (validName_inv _ H) as (E & _ & _ & Hn).
  destruct a as [|c a]; [discriminate|]. simpl in Hn.
  apply andb_prop in Hn as [Hc _]. apply negb_true_iff in Hc.
  destruct l; exact Hc.
Qed.

Lemma dirname_join (l : list string) (n : string) :
  validNames l -> l <> [] -> validName n = true ->
  Path.dirname (Js.join "/" (l ++ [n])) = Js.join "/" l.
Proof.
  intros Hl Hne Hn. rewrite join_snoc by assumption.
  destruct l as [|a l]; [congruence|]. inversion Hl; subst.
  apply dirname_child; auto using join_relative_head.
  apply join_nonempty. now apply validName_nonempty.
Qed.

(** [path.join] of a relative directory and a name. *)
Lemma join_relative (l : list string) (n : string) :
  validNames l -> l <> [] -> validName n = true ->
  Path.join (Js.join "/" l) n = Js.join "/" (l ++ [n]).
Proof.
  intros Hl Hne Hn. unfold Path.join.
  rewrite join_valid_nonempty by assumption.
  destruct (validName_inv _ Hn) as (E1 & _). rewrite E1.
  rewrite <- join_snoc by assumption.
  assert (Hv : validNames (l ++ [n])) by now apply validNames_snoc.
  assert (Hne' : l ++ [n] <> []) by now destruct l.
  unfold Path.normalize. rewrite join_valid_nonempty by assumption.
  destruct l as [|a l]; [congruence|]. inversion Hl; subst.
  change ((a :: l) ++ [n]) with (a :: (l ++ [n])) in *.
  rewrite join_relative_head by assumption. cbv zeta. simpl negb.
  unfold Path.normalizeString.
  rewrite split_join by (auto using validNames_noSep).
  rewrite normalizeSegments_valid by assumption. simpl rev. simpl app.
  rewrite join_valid_nonempty by assumption.
  change (a :: l ++ [n]) with ((a :: l) ++ [n]).
  rewrite join_snoc by discriminate.
  replace (Js.join "/" (a :: l) +++ "/" +++ n)
    with ((Js.join "/" (a :: l) +++ "/") +++ n) by apply append_assoc.
  rewrite hasTrailingSep_append by assumption.
  change Path.sep with "/". rewrite join_snoc by discriminate.
  symmetry. apply append_assoc.
Qed.

Lemma join_not_dot (l : list string) :
  validNames l -> l <> [] -> Js.join "/" l <> ".".
Proof.
  intros Hl Hne E. change "." with (Js.join "/" ["."]) in E.
  destruct l as [|a l]; [congruence|]. inversion Hl; subst.
  assert (Hs := split_join (a :: l) (validNames_noSep _ Hl) Hne).
  rewrite E in Hs. simpl in Hs. injection Hs as Ha _. subst a. discriminate.
Qed.

(** ** Sorting *)

Lemma sortInsert_perm {A} (cmp : A -> A -> Z) (x : A) (l : list A) :
  Permutation (x :: l) (Js.sortInsert cmp x l).
Proof.
  induction l as [|y l IH]; simpl; [reflexivity|].
  destruct (cmp x y <=? 0)%Z; [reflexivity|].
  rewrite perm_swap. now constructor.
Qed.

Lemma sort_perm {A} (cmp : A -> A -> Z) (l : list A) :
  Permutation l (Js.sort cmp l).
Proof.
  induction l as [|x l IH]; simpl; [constructor|].
  rewrite <- sortInsert_perm. now constructor.
Qed.

Lemma sort_In {A} (cmp : A -> A -> Z) (l : list A) (x : A) :
  In x (Js.sort cmp l) <-> In x l.
Proof.
  split; apply Permutation_in; [symmetry|]; apply sort_perm.
Qed.

Lemma sortedBy_nil {A} (cmp : A -> A -> Z) : sortedBy cmp [].
Proof. intros pre x mid y post E. destruct pre; discriminate. Qed.

Lemma sortedBy_cons {A} (cmp : A -> A -> Z) (x : A) (l : list A) :
  (forall y, In y l -> (cmp x y <= 0)%Z) -> sortedBy cmp l ->
  sortedBy cmp (x :: l).
Proof.
  intros Hx Hl pre a mid b post E. destruct pre as [|p pre]; simpl in E.
  - injection E as <- El. apply Hx. subst l. apply in_elt.
  - injection E as _ El. exact (Hl _ _ _ _ _ El).
Qed.

Lemma sortedBy_inv {A} (cmp : A -> A -> Z) (x : A) (l : list A) :
  sortedBy cmp (x :: l) ->
  (forall y, In y l -> (cmp x y <= 0)%Z) /\ sortedBy cmp l.
Proof.
  intros H. split.
  - intros y Hy. apply in_split in Hy as (mid & post & ->).
    exact (H [] x mid y post eq_refl).
  - intros pre a mid b post E. apply (H (x :: pre) a mid b post).
    now rewrite E.
Qed.

Section Sorted.
Context {A : Type} (cmp : A -> A -> Z).
Hypothesis cmp_total : forall a b, (0 < cmp a b)%Z -> (cmp b a <= 0)%Z.
Hypothesis cmp_trans : forall a b c,
    (cmp a b <= 0)%Z -> (cmp b c <= 0)%Z -> (cmp a c <= 0)%Z.

Lemma sortInsert_sorted (x : A) (l : list A) :
  sortedBy cmp l -> sortedBy cmp (Js.sortInsert cmp x l).
Proof.
  induction l as [|y l IH]; intros Hl; simpl.
  - apply sortedBy_cons; [intros ? [] | apply sortedBy_nil].
  - destruct (sortedBy_inv _ _ _ Hl) as [Hy Hl'].
    destruct (Z.leb_spec (cmp x y) 0) as [Hle|Hgt].
    + apply sortedBy_cons; [|assumption].
      intros z [<-|Hz]; [assumption|]. eauto.
    + apply sortedBy_cons; [|auto].
      intros z Hz. apply (Permutation_in _ (Permutation_sym (sortInsert_perm cmp x l))) in Hz.
      destruct Hz as [<-|Hz]; auto.
Qed.

Lemma sort_sorted (l : list A) : sortedBy cmp (Js.sort cmp l).
Proof.
  induction l as [|x l IH]; simpl;
    [apply sortedBy_nil | now apply sortInsert_sorted].
Qed.
End Sorted.

(** ** The shape of the scanner's result *)

Section Scanner.

Variable localeCompare : string -> string -> Z.
Variable cwd : string.
Variable fs : FileSystem.

Local Abbreviation scan := (findMarkdownRecursive localeCompare cwd fs).
Local Abbreviation entry := (entryOf cwd).

(** What one iteration appends does not depend on [results]. *)
Lemma visit_results rec dirPath rootDir d results :
  visit cwd rec dirPath rootDir d results =
  match visit cwd rec dirPath rootDir d [] with
  | Ok new => Ok (results ++ new)
  | Throw => Throw
  | OutOfFuel => OutOfFuel
  end.
Proof.
  unfold visit. destruct (Dirent.isDirectory d).
  - destruct (rec _); simpl; [|reflexivity..]. now rewrite <- app_assoc.
  - destruct (_ && _); simpl; [reflexivity | now rewrite app_nil_r].
Qed.

Lemma visit_directory rec dirPath rootDir d :
  Dirent.isDirectory d = true ->
  visit cwd rec dirPath rootDir d [] =
  match rec (Path.join dirPath (Dirent.name d)) with
  | Ok sub => Ok (entry dirPath rootDir d :: sub)
  | Throw => Throw
  | OutOfFuel => OutOfFuel
  end.
Proof. intros H. unfold visit, entryOf. now rewrite H. Qed.

Lemma visit_other rec dirPath rootDir d :
  Dirent.isDirectory d = false ->
  visit cwd rec dirPath rootDir d [] =
  Ok (if Dirent.isFile d && qualifies (Dirent.name d)
      then [entry dirPath rootDir d] else []).
Proof.
  intros H. unfold visit, entryOf, qualifies. rewrite H.
  now destruct (_ && _).
Qed.

Lemma forDirents_results rec dirPath rootDir l results :
  forDirents (visit cwd rec dirPath rootDir) l results =
  match forDirents (visit cwd rec dirPath rootDir) l [] with
  | Ok new => Ok (results ++ new)
  | Throw => Throw
  | OutOfFuel => OutOfFuel
  end.
Proof.
  revert results. induction l as [|d l IH]; intros results; simpl.
  - now rewrite app_nil_r.
  - rewrite (visit_results _ _ _ _ results).
    destruct (visit cwd rec dirPath rootDir d []) as [new| |];
      [|reflexivity..].
    simpl. rewrite IH, (IH new).
    destruct (forDirents _ l []); [|reflexivity..].
    now rewrite app_assoc.
Qed.

Lemma forDirents_app (body : Dirent.t -> list FileInfo -> outcome (list FileInfo))
    l1 l2 results :
  forDirents body (l1 ++ l2) results =
  match forDirents body l1 results with
  | Ok r => forDirents body l2 r
  | Throw => Throw
  | OutOfFuel => OutOfFuel
  end.
Proof.
  revert results. induction l1 as [|d l1 IH]; intros results; simpl;
    [reflexivity|].
  destruct (body d results); [apply IH | reflexivity..].
Qed.

(** The result of the loop is the blocks of the children, in order. *)
Lemma forDirents_split rec dirPath rootDir l1 d l2 results :
  forDirents (visit cwd rec dirPath rootDir) (l1 ++ d :: l2) [] = Ok results ->
  exists r1 block r2,
    forDirents (visit cwd rec dirPath rootDir) l1 [] = Ok r1
    /\ visit cwd rec dirPath rootDir d [] = Ok block
    /\ forDirents (visit cwd rec dirPath rootDir) l2 [] = Ok r2
    /\ results = r1 ++ block ++ r2.
Proof.
  rewrite forDirents_app.
  destruct (forDirents _ l1 []) as [r1| |]; [|discriminate..].
  simpl. rewrite visit_results.
  destruct (visit cwd rec dirPath rootDir d []) as [block| |];
    [|discriminate..].
  rewrite forDirents_results.
  destruct (forDirents _ l2 []) as [r2| |]; [|discriminate..].
  intros [= <-]. exists r1, block, r2. now rewrite app_assoc.
Qed.

Lemma scan_unfold fuel dirPath rootDir dirents :
  readdir fs dirPath = Some dirents ->
  scan (S fuel) dirPath rootDir =
  forDirents (visit cwd (fun sub => scan fuel sub rootDir) dirPath rootDir)
    (Js.sort (compareDirents localeCompare) dirents) [].
Proof. intros H. simpl. now rewrite H. Qed.

(** *** Fuel *)

Lemma forDirents_mono (rec1 rec2 : string -> outcome (list FileInfo))
    dirPath rootDir l results :
  (forall p, rec1 p <> OutOfFuel -> rec2 p = rec1 p) ->
  forDirents (visit cwd rec1 dirPath rootDir) l results <> OutOfFuel ->
  forDirents (visit cwd rec2 dirPath rootDir) l results
  = forDirents (visit cwd rec1 dirPath rootDir) l results.
Proof.
  intros Hrec. revert results. induction l as [|d l IH]; intros results;
    simpl; [reflexivity|].
  assert (Hv : visit cwd rec1 dirPath rootDir d results <> OutOfFuel ->
               visit cwd rec2 dirPath rootDir d results
               = visit cwd rec1 dirPath rootDir d results).
  { unfold visit. destruct (Dirent.isDirectory d); [|reflexivity].
    intros H. rewrite Hrec; [reflexivity|].
    intros E. rewrite E in H. congruence. }
  destruct (visit cwd rec1 dirPath rootDir d results) eqn:E1.
  - rewrite Hv by discriminate. apply IH.
  - rewrite Hv by discriminate. reflexivity.
  - congruence.
Qed.

(** More fuel does not change a result. *)
Lemma scan_mono fuel k dirPath rootDir :
  scan fuel dirPath rootDir <> OutOfFuel ->
  scan (fuel + k) dirPath rootDir = scan fuel dirPath rootDir.
Proof.
  revert dirPath. induction fuel as [|fuel IH]; intros dirPath H;
    [simpl in H; congruence|].
  simpl in *. destruct (readdir fs dirPath); [|reflexivity].
  apply forDirents_mono; [|assumption]. intros p Hp. now apply IH.
Qed.

Lemma forDirents_total rec dirPath rootDir l results :
  (forall d, In d l -> Dirent.isDirectory d = true ->
             rec (Path.join dirPath (Dirent.name d)) <> OutOfFuel) ->
  forDirents (visit cwd rec dirPath rootDir) l results <> OutOfFuel.
Proof.
  revert results. induction l as [|d l IH]; intros results Hrec; simpl;
    [discriminate|].
  destruct (visit cwd rec dirPath rootDir d results) eqn:E.
  - apply IH. intros; apply Hrec; simpl; auto.
  - discriminate.
  - exfalso. unfold visit in E.
    destruct (Dirent.isDirectory d) eqn:Hd.
    + specialize (Hrec d (or_introl eq_refl) Hd).
      destruct (rec _); congruence.
    + destruct (_ && _); discriminate.
Qed.

(** A tree of bounded depth is scanned with that much fuel. *)
Lemma scan_total fuel dirPath rootDir :
  depthWithin fs fuel dirPath -> scan fuel dirPath rootDir <> OutOfFuel.
Proof.
  revert dirPath. induction fuel as [|fuel IH]; intros dirPath H;
    simpl in *; [contradiction|].
  destruct (readdir fs dirPath) as [dirents|]; [|discriminate].
  apply forDirents_total. intros d Hd Hdir.
  apply IH, H; [|assumption]. now apply sort_In in Hd.
Qed.

End Scanner.

(** ** The reconciliation loop *)

Lemma firstn_snoc {A} (l m : list A) (x : A) :
  firstn (S (List.length l)) (l ++ x :: m) = l ++ [x].
Proof.
  induction l as [|a l IH]; [reflexivity|].
  simpl List.length. simpl app. rewrite firstn_cons. now f_equal.
Qed.

Lemma addParentHeader_step (part cumulativePath : string) (st : AssemblerState) :
  addParentHeader part (cumulativePath, st) =
  let next := if String.eqb cumulativePath "" then part
              else Path.join cumulativePath part in
  (next,
   if negb (Js.startsWith (lastProcessedDirRelative st) next)
   then push st (dirHeader next) else st).
Proof. unfold addParentHeader. cbv zeta. now destruct (negb _). Qed.

Lemma addParentHeaders_fold (done todo : list string) (st : AssemblerState)
    (cumulativePath : string) :
  validNames (done ++ todo) ->
  cumulativePath = match done with [] => "" | _ => Js.join "/" done end ->
  snd (fold_left (fun acc part => addParentHeader part acc) todo
         (cumulativePath, st))
  = mkState
      (outputContent st ++
       map dirHeader
         (filter (fun prefix =>
                    negb (Js.startsWith (lastProcessedDirRelative st) prefix))
            (map (fun k => Js.join "/" (firstn k (done ++ todo)))
               (seq (S (List.length done)) (List.length todo)))))
      (lastProcessedDirRelative st) (warned st).
Proof.
  revert done st cumulativePath.
  induction todo as [|part todo IH]; intros done st cum Hv Hcum.
  - simpl. rewrite app_nil_r. now destruct st.
  - assert (Hd : validNames done) by (apply Forall_app in Hv; tauto).
    assert (Hp : validName part = true).
    { apply Forall_app in Hv as [_ Hv]. now inversion Hv. }
    assert (Hcum' : (if String.eqb cum "" then part else Path.join cum part)
                    = Js.join "/" (done ++ [part])).
    { subst cum. destruct done as [|a done]; [reflexivity|].
      rewrite join_valid_nonempty by (auto; discriminate).
      apply join_relative; auto; discriminate. }
    change (fold_left (fun acc part => addParentHeader part acc)
              (part :: todo) (cum, st))
      with (fold_left (fun acc part => addParentHeader part acc) todo
              (addParentHeader part (cum, st))).
    rewrite addParentHeader_step. cbv zeta. rewrite Hcum'.
    assert (Hv' : validNames ((done ++ [part]) ++ todo))
      by now rewrite <- app_assoc.
    assert (Hc : Js.join "/" (done ++ [part]) =
                 match done ++ [part] with
                 | [] => ""
                 | _ => Js.join "/" (done ++ [part])
                 end) by now destruct done.
    rewrite (IH (done ++ [part]) _ _ Hv' Hc).
    replace (S (List.length (done ++ [part])))
      with (S (S (List.length done))) by (rewrite length_app; simpl; lia).
    rewrite <- (app_assoc done [part] todo).
    change ([part] ++ todo) with (part :: todo).
    change (seq (S (List.length done)) (List.length (part :: todo)))
      with (S (List.length done) :: seq (S (S (List.length done))) (List.length todo)).
    rewrite map_cons, firstn_snoc.
    change (filter ?f (?x :: ?l)) with (if f x then x :: filter f l else filter f l).
    cbv beta.
    destruct (negb (Js.startsWith (lastProcessedDirRelative st)
                      (Js.join "/" (done ++ [part])))) eqn:E.
    + simpl. now rewrite <- app_assoc.
    + reflexivity.
Qed.

(** C1: for a document whose parent directory is neither the last headered
    directory nor the root, the loop body emits a directory header for each
    ancestor prefix of the parent, from the shallowest to the deepest, except
    the prefixes that [lastProcessedDirRelative] starts with, and then sets
    [lastProcessedDirRelative] to the parent, whether or not a header was
    emitted.  The parent is a path of valid names, as the scanner builds
    it. *)
Theorem C1_reconciliation (st : AssemblerState) (info : FileInfo) :
  isDirectory info = false ->
  Path.dirname (relativePath info) <> lastProcessedDirRelative st ->
  Path.dirname (relativePath info) <> "." ->
  validNames (Js.split Path.sepChar (Path.dirname (relativePath info))) ->
  directoryHeaders info st
  = mkState
      (outputContent st ++
       reconciliationHeaders (lastProcessedDirRelative st)
         (Path.dirname (relativePath info)))
      (Path.dirname (relativePath info))
      (warned st).
Proof.
  intros Hdoc Hlast Hroot Hv. unfold directoryHeaders.
  rewrite Hdoc. simpl andb.
  apply String.eqb_neq in Hlast, Hroot. rewrite Hlast, Hroot. simpl.
  unfold addParentHeaders.
  rewrite (addParentHeaders_fold [] _ st "" Hv eq_refl).
  reflexivity.
Qed.

(** The document x/y/z.md met while the last header is x: only x/y gets a
    header. *)
Lemma C1_reconciliation_witness :
  directoryHeaders (mkFileInfo "/r/x/y/z.md" "x/y/z.md" false "z.md")
    (mkState [dirHeader "x"] "x" [])
  = mkState [dirHeader "x"; dirHeader "x/y"] "x/y" [].
Proof.
  apply (C1_reconciliation (mkState [dirHeader "x"] "x" [])
           (mkFileInfo "/r/x/y/z.md" "x/y/z.md" false "z.md")).
  - reflexivity.
  - discriminate.
  - discriminate.
  - repeat constructor.
Defined.

(** ** What the scanner keeps *)

Section Kept.

Variable localeCompare : string -> string -> Z.
Variable cwd : string.
Variable fs : FileSystem.

Local Abbreviation scan := (findMarkdownRecursive localeCompare cwd fs).
Local Abbreviation entry := (entryOf cwd).

Lemma file_not_directory (d : Dirent.t) :
  Dirent.isFile d = true -> Dirent.isDirectory d = false.
Proof. unfold Dirent.isFile, Dirent.isDirectory. now destruct (Dirent.kind d). Qed.

(** The iteration for a file: one entry if the name qualifies, nothing
    otherwise, and no failure either way. *)
Lemma visit_file rec dirPath rootDir d results :
  Dirent.isFile d = true ->
  visit cwd rec dirPath rootDir d results =
  Ok (if qualifies (Dirent.name d)
      then results ++ [entry dirPath rootDir d] else results).
Proof.
  intros H. rewrite visit_results, visit_other by now apply file_not_directory.
  rewrite H. simpl. destruct (qualifies _); [reflexivity | now rewrite app_nil_r].
Qed.

(** The iteration for an entry that is neither a directory nor a file. *)
Lemma visit_special rec dirPath rootDir d results :
  Dirent.isDirectory d = false -> Dirent.isFile d = false ->
  visit cwd rec dirPath rootDir d results = Ok results.
Proof.
  intros Hd Hf. rewrite visit_results, visit_other by assumption.
  rewrite Hf. simpl. now rewrite app_nil_r.
Qed.

(** A property of the entries that holds of what each child contributes
    holds of the result of the loop. *)
Lemma forDirents_Forall (P : FileInfo -> Prop) rec dirPath rootDir l results r :
  (forall d sub, In d l -> Dirent.isDirectory d = true ->
     rec (Path.join dirPath (Dirent.name d)) = Ok sub -> Forall P sub) ->
  (forall d, In d l -> kept d = true -> P (entry dirPath rootDir d)) ->
  Forall P results ->
  forDirents (visit cwd rec dirPath rootDir) l results = Ok r ->
  Forall P r.
Proof.
  revert results. induction l as [|d l IH]; intros results Hrec Hentry Hres;
    simpl; [now intros [= <-]|].
  destruct (visit cwd rec dirPath rootDir d results) as [r1| |] eqn:E;
    [|discriminate..].
  apply IH; [intros; eapply Hrec; simpl; eauto | intros; apply Hentry; simpl; auto|].
  rewrite visit_results in E.
  destruct (Dirent.isDirectory d) eqn:Hd.
  - rewrite visit_directory in E by assumption.
    destruct (rec _) as [sub| |] eqn:Esub; [|discriminate..].
    injection E as <-. apply Forall_app. split; [assumption|].
    constructor.
    + apply Hentry; [now left|]. unfold kept. now rewrite Hd.
    + eapply Hrec; eauto. now left.
  - rewrite visit_other in E by assumption. injection E as <-.
    apply Forall_app. split; [assumption|].
    destruct (_ && _) eqn:Ek; [|constructor].
    constructor; [|constructor]. apply Hentry; [now left|].
    unfold kept. now rewrite Ek, orb_true_r.
Qed.

(** Every document of the list has a qualifying name. *)
Lemma scan_documents_qualify fuel dirPath rootDir results :
  scan fuel dirPath rootDir = Ok results ->
  Forall (fun e => isDirectory e = false -> qualifies (name e) = true) results.
Proof.
  revert dirPath results. induction fuel as [|fuel IH]; intros dirPath results;
    simpl; [discriminate|].
  destruct (readdir fs dirPath) as [dirents|]; [|discriminate].
  apply forDirents_Forall; [intros; eapply IH; eauto | | constructor].
  intros d _ Hk Hdoc. unfold entryOf in *. simpl in *.
  unfold kept in Hk. rewrite Hdoc in Hk. simpl in Hk.
  now apply andb_prop in Hk.
Qed.

(** Every child that is a directory or a qualifying file has its entry in
    the list. *)
Lemma scan_kept fuel dirPath rootDir dirents d results :
  readdir fs dirPath = Some dirents -> In d dirents -> kept d = true ->
  scan fuel dirPath rootDir = Ok results ->
  In (entry dirPath rootDir d) results.
Proof.
  intros Hls Hd Hk. destruct fuel as [|fuel]; [discriminate|].
  rewrite (scan_unfold _ _ _ _ _ _ _ Hls).
  apply (sort_In (compareDirents localeCompare)) in Hd.
  apply in_split in Hd as (l1 & l2 & ->). intros H.
  apply forDirents_split in H as (r1 & block & r2 & _ & Hb & _ & ->).
  apply in_or_app. right. apply in_or_app. left.
  destruct (Dirent.isDirectory d) eqn:Hdir.
  - rewrite visit_directory in Hb by assumption.
    destruct (scan fuel _ _); [|discriminate..]. injection Hb as <-. now left.
  - rewrite visit_other in Hb by assumption. unfold kept in Hk.
    rewrite Hdir in Hk. simpl in Hk. rewrite Hk in Hb.
    injection Hb as <-. now left.
Qed.

(** C6: a file of a scanned directory has its entry in the list exactly
    when its lowered name ends with ".md"; the iteration for a file adds
    that one document entry or nothing, and never fails. *)
Theorem C6_document_iff_md fuel dirPath rootDir dirents d results :
  readdir fs dirPath = Some dirents -> In d dirents ->
  Dirent.isFile d = true ->
  scan fuel dirPath rootDir = Ok results ->
  (In (entry dirPath rootDir d) results
   <-> Js.endsWith (Js.toLowerCase (Dirent.name d)) ".md" = true)
  /\ isDirectory (entry dirPath rootDir d) = false
  /\ forall rec acc,
       visit cwd rec dirPath rootDir d acc =
       Ok (if Js.endsWith (Js.toLowerCase (Dirent.name d)) ".md"
           then acc ++ [entry dirPath rootDir d] else acc).
Proof.
  intros Hls Hd Hfile Hscan. split; [split|split].
  - intros Hin.
    assert (Hq := scan_documents_qualify _ _ _ _ Hscan).
    apply (proj1 (Forall_forall _ _) Hq) in Hin. apply Hin.
    simpl. now apply file_not_directory.
  - intros Hq. eapply scan_kept; eauto.
    unfold kept, qualifies. now rewrite Hfile, Hq, orb_true_r.
  - simpl. now apply file_not_directory.
  - intros rec acc. now apply visit_file.
Qed.

(** C10: the iteration for a child that is neither a directory nor a
    regular file leaves the list as it is and does not fail, whatever the
    name of the child; the list of the directory is the one of the loop over
    its other children. *)
Theorem C10_special_entries_skipped dirPath rootDir d :
  Dirent.isDirectory d = false -> Dirent.isFile d = false ->
  (forall rec acc, visit cwd rec dirPath rootDir d acc = Ok acc)
  /\ (forall fuel dirents before after,
        readdir fs dirPath = Some dirents ->
        Js.sort (compareDirents localeCompare) dirents = before ++ d :: after ->
        scan (S fuel) dirPath rootDir =
        forDirents (visit cwd (fun sub => scan fuel sub rootDir) dirPath rootDir)
          (before ++ after) []).
Proof.
  intros Hd Hf. split.
  - intros rec acc. now apply visit_special.
  - intros fuel dirents before after Hls Hsort.
    rewrite (scan_unfold _ _ _ _ _ _ _ Hls), Hsort, !forDirents_app.
    destruct (forDirents _ before []); [|reflexivity..].
    simpl. now rewrite visit_special.
Qed.

End Kept.

Lemma C6_document_iff_md_witness :
  (In (entryOf "/w" "/r/x/y" "/r" (file "notes.txt"))
      [mkFileInfo "/r/x/y/z.md" "x/y/z.md" false "z.md"]
   <-> Js.endsWith (Js.toLowerCase "notes.txt") ".md" = true)
  /\ isDirectory (entryOf "/w" "/r/x/y" "/r" (file "notes.txt")) = false
  /\ forall rec acc,
       visit "/w" rec "/r/x/y" "/r" (file "notes.txt") acc =
       Ok (if Js.endsWith (Js.toLowerCase "notes.txt") ".md"
           then acc ++ [entryOf "/w" "/r/x/y" "/r" (file "notes.txt")]
           else acc).
Proof.
  apply (C6_document_iff_md Collation.localeCompare "/w" fsDeep 1
           "/r/x/y" "/r" [file "z.md"; file "notes.txt"] (file "notes.txt")).
  - reflexivity.
  - right. now left.
  - reflexivity.
  - reflexivity.
Defined.

Lemma C10_special_entries_skipped_witness :
  (forall rec acc, visit "/w" rec "/r" "/r" (symlink "link.md") acc = Ok acc)
  /\ (forall fuel dirents before after,
        readdir fsDeep "/r" = Some dirents ->
        Js.sort (compareDirents Collation.localeCompare) dirents
        = before ++ symlink "link.md" :: after ->
        findMarkdownRecursive Collation.localeCompare "/w" fsDeep (S fuel) "/r" "/r" =
        forDirents
          (visit "/w"
             (fun sub =>
                findMarkdownRecursive Collation.localeCompare "/w" fsDeep fuel sub "/r")
             "/r" "/r")
          (before ++ after) []).
Proof.
  apply (C10_special_entries_skipped Collation.localeCompare "/w" fsDeep
           "/r" "/r" (symlink "link.md")); reflexivity.
Defined.

(** ** The assembler and [run] *)

Section Assembler.

Variable localeCompare : string -> string -> Z.
Variable cwd : string.
Variable fs : FileSystem.

Local Abbreviation scan := (findMarkdownRecursive localeCompare cwd fs).

Lemma readErrorText_separator (n : string) :
  readErrorText n = ("*Error reading file " +++ n +++ "*") +++ separator.
Proof. unfold readErrorText, separator. now rewrite !append_assoc. Qed.

Lemma assemble_app (pre post : list FileInfo) :
  assemble fs (pre ++ post) = fold_left (processInfo fs) post (assemble fs pre).
Proof. unfold assemble. apply fold_left_app. Qed.

(** A run whose scan and whose write succeed. *)
Lemma run_written fuel arg fileInfos :
  stat fs (Path.resolve cwd arg) = StatDirectory ->
  scan fuel (Path.resolve cwd arg) (Path.resolve cwd arg) = Ok fileInfos ->
  writeFile fs (Path.join cwd OUTPUT_FILENAME)
    (finalOutput (assemble fs fileInfos)) = true ->
  run localeCompare cwd fs fuel [arg] =
  Some (ConsoleLog ("Scanning directory: " +++ Path.resolve cwd arg)
        :: map warning (warned (assemble fs fileInfos))
        ++ [WriteFile (Path.join cwd OUTPUT_FILENAME)
              (finalOutput (assemble fs fileInfos));
            ConsoleLog ("Successfully concatenated markdown files into: "
                        +++ Path.join cwd OUTPUT_FILENAME)],
        Returned).
Proof. intros Hstat Hscan Hwrite. unfold run. now rewrite Hstat, Hscan, Hwrite. Qed.

(** C7: when the content of a document cannot be read, the loop body has
    pushed the file header, pushes the placeholder that names the file and
    ends with the separator of a successful read, and leaves
    [lastProcessedDirRelative] as a successful read would; the loop goes on
    with the entries that follow, and a run whose write succeeds still writes
    the output and returns. *)
Theorem C7_read_failure_is_local (info : FileInfo) :
  isDirectory info = false ->
  readFile fs (fullPath info) = None ->
  (forall st,
     processInfo fs st info =
     mkState
       (outputContent (directoryHeaders info st)
        ++ [fileHeader (name info);
            ("*Error reading file " +++ name info +++ "*") +++ separator])
       (lastProcessedDirRelative (directoryHeaders info st))
       (warned (directoryHeaders info st) ++ [fullPath info]))
  /\ (forall pre post,
        assemble fs (pre ++ info :: post) =
        fold_left (processInfo fs) post
          (processInfo fs (assemble fs pre) info))
  /\ (forall fuel arg pre post,
        stat fs (Path.resolve cwd arg) = StatDirectory ->
        scan fuel (Path.resolve cwd arg) (Path.resolve cwd arg)
        = Ok (pre ++ info :: post) ->
        writeFile fs (Path.join cwd OUTPUT_FILENAME)
          (finalOutput (assemble fs (pre ++ info :: post))) = true ->
        exists effects,
          run localeCompare cwd fs fuel [arg] = Some (effects, Returned)
          /\ In (WriteFile (Path.join cwd OUTPUT_FILENAME)
                   (finalOutput (assemble fs (pre ++ info :: post)))) effects).
Proof.
  intros Hdoc Hread. split; [|split].
  - intros st. unfold processInfo, fileSection. rewrite Hdoc, Hread.
    cbv [negb]. rewrite readErrorText_separator. unfold push.
    cbn [outputContent lastProcessedDirRelative warned].
    now rewrite <- app_assoc.
  - intros pre post. now rewrite assemble_app.
  - intros fuel arg pre post Hstat Hscan Hwrite.
    eexists. split; [apply run_written; eassumption|].
    right. apply in_or_app. right. now left.
Qed.

(** C9: when the list of the scanner is empty, the assembled text is the
    empty string; the run writes it to the output file and, the write
    succeeding, returns after the two messages of a normal run. *)
Theorem C9_empty_list fuel arg :
  stat fs (Path.resolve cwd arg) = StatDirectory ->
  scan fuel (Path.resolve cwd arg) (Path.resolve cwd arg) = Ok [] ->
  finalOutput (assemble fs []) = ""
  /\ (writeFile fs (Path.join cwd OUTPUT_FILENAME) "" = true ->
      run localeCompare cwd fs fuel [arg] =
      Some ([ConsoleLog ("Scanning directory: " +++ Path.resolve cwd arg);
             WriteFile (Path.join cwd OUTPUT_FILENAME) "";
             ConsoleLog ("Successfully concatenated markdown files into: "
                         +++ Path.join cwd OUTPUT_FILENAME)],
            Returned)).
Proof.
  intros Hstat Hscan. split; [reflexivity|]. intros Hwrite.
  now rewrite (run_written _ _ _ Hstat Hscan Hwrite).
Qed.

(** A directory that lists no sub-directory and no qualifying file gives
    the empty list. *)
Lemma scan_nothing_kept fuel dirPath rootDir dirents :
  readdir fs dirPath = Some dirents ->
  Forall (fun d => kept d = false) dirents ->
  scan (S fuel) dirPath rootDir = Ok [].
Proof.
  intros Hls Hnone. rewrite (scan_unfold _ _ _ _ _ _ _ Hls).
  assert (H : Forall (fun d => kept d = false)
                (Js.sort (compareDirents localeCompare) dirents)).
  { apply Forall_forall. intros d Hd. apply sort_In in Hd.
    now apply (proj1 (Forall_forall _ _) Hnone). }
  induction H as [|d l Hd _ IH]; [reflexivity|].
  simpl. unfold kept in Hd. apply orb_false_elim in Hd as [Hdir Hfile].
  rewrite visit_results, visit_other, Hfile by assumption. exact IH.
Qed.

End Assembler.

Lemma C7_read_failure_is_local_witness :
  processInfo fsDeep (mkState [dirHeader "x"; dirHeader "x/y"] "x/y" [])
    (mkFileInfo "/r/x/y/z.md" "x/y/z.md" false "z.md")
  = mkState
      [dirHeader "x"; dirHeader "x/y"; fileHeader "z.md";
       "*Error reading file z.md*" +++ separator]
      "x/y" ["/r/x/y/z.md"].
Proof.
  apply (proj1 (C7_read_failure_is_local Collation.localeCompare "/w" fsDeep
                  (mkFileInfo "/r/x/y/z.md" "x/y/z.md" false "z.md")
                  eq_refl eq_refl)).
Defined.

Lemma C9_empty_list_witness :
  run Collation.localeCompare "/w" fsBare 1 ["/r"] =
  Some ([ConsoleLog "Scanning directory: /r";
         WriteFile "/w/concatenated_output.md" "";
         ConsoleLog
           "Successfully concatenated markdown files into: /w/concatenated_output.md"],
        Returned).
Proof.
  apply (proj2 (C9_empty_list Collation.localeCompare "/w" fsBare 1 "/r"
                  eq_refl eq_refl) eq_refl).
Defined.

(** ** The scenario of a root file next to a sub-directory *)

Section Scenario.

Variable localeCompare : string -> string -> Z.
Variable cwd : string.
Variable fs : FileSystem.

Local Abbreviation scan := (findMarkdownRecursive localeCompare cwd fs).

(** Directories sort before files, in whichever order they are listed. *)
Lemma sort_file_dir (f d : Dirent.t) (l : list Dirent.t) :
  Dirent.isDirectory f = false -> Dirent.isDirectory d = true ->
  l = [f; d] \/ l = [d; f] ->
  Js.sort (compareDirents localeCompare) l = [d; f].
Proof.
  intros Hf Hd [-> | ->]; simpl; unfold compareDirents; rewrite Hf, Hd;
    reflexivity.
Qed.

(** C3 as amended: the root holds a.md and sub/, and sub/ holds b.md.  The
    list is sub, sub/b.md, a.md, and the text is the directory header of
    sub, the file header, the content and the separator of b.md, and then
    the file header, the content and the separator of a.md: the output of
    the sub-directory precedes the output of the file of the root. *)
Theorem C3_subdirectory_first (rsegs : list string) (listing : list Dirent.t)
    (contentA contentB : string) (fuel : nat) :
  validNames rsegs ->
  listing = [file "a.md"; dir "sub"] \/ listing = [dir "sub"; file "a.md"] ->
  readdir fs (absolute rsegs) = Some listing ->
  readdir fs (absolute (rsegs ++ ["sub"])) = Some [file "b.md"] ->
  readFile fs (absolute (rsegs ++ ["a.md"])) = Some contentA ->
  readFile fs (absolute (rsegs ++ ["sub"; "b.md"])) = Some contentB ->
  scan (S (S fuel)) (absolute rsegs) (absolute rsegs)
  = Ok [mkFileInfo (absolute (rsegs ++ ["sub"])) "sub" true "sub";
        mkFileInfo (absolute (rsegs ++ ["sub"; "b.md"])) "sub/b.md" false "b.md";
        mkFileInfo (absolute (rsegs ++ ["a.md"])) "a.md" false "a.md"]
  /\ forall fileInfos,
       scan (S (S fuel)) (absolute rsegs) (absolute rsegs) = Ok fileInfos ->
       outputContent (assemble fs fileInfos)
       = [dirHeader "sub"; fileHeader "b.md"; contentB; separator;
          fileHeader "a.md"; contentA; separator].
Proof.
  intros Hr Hlisting Hroot Hsub HA HB.
  assert (Hscan :
    scan (S (S fuel)) (absolute rsegs) (absolute rsegs)
    = Ok [mkFileInfo (absolute (rsegs ++ ["sub"])) "sub" true "sub";
          mkFileInfo (absolute (rsegs ++ ["sub"; "b.md"])) "sub/b.md" false "b.md";
          mkFileInfo (absolute (rsegs ++ ["a.md"])) "a.md" false "a.md"]).
  { rewrite (scan_unfold _ _ _ _ _ _ _ Hroot).
    rewrite (sort_file_dir (file "a.md") (dir "sub")) by auto.
    assert (Js : Path.join (absolute rsegs) "sub" = absolute (rsegs ++ ["sub"]))
      by now apply join_absolute.
    assert (Ja : Path.join (absolute rsegs) "a.md" = absolute (rsegs ++ ["a.md"]))
      by now apply join_absolute.
    assert (Jb : Path.join (absolute (rsegs ++ ["sub"])) "b.md"
                 = absolute (rsegs ++ ["sub"; "b.md"])).
    { rewrite join_absolute; [now rewrite <- app_assoc | | reflexivity].
      apply validNames_snoc; auto. }
    assert (Rs : Path.relative cwd (absolute rsegs) (absolute (rsegs ++ ["sub"]))
                 = "sub")
      by (rewrite relative_absolute; auto; [now repeat constructor | discriminate]).
    assert (Ra : Path.relative cwd (absolute rsegs) (absolute (rsegs ++ ["a.md"]))
                 = "a.md")
      by (rewrite relative_absolute; auto; [now repeat constructor | discriminate]).
    assert (Rb : Path.relative cwd (absolute rsegs)
                   (absolute (rsegs ++ ["sub"; "b.md"])) = "sub/b.md")
      by (rewrite relative_absolute; auto; [now repeat constructor | discriminate]).
    cbn [forDirents]. unfold visit at 1. cbn [Dirent.isDirectory Dirent.kind Dirent.name dir].
    cbv iota. rewrite Js, Rs.
    rewrite (scan_unfold _ _ _ _ _ _ _ Hsub).
    cbn [Js.sort fold_right Js.sortInsert forDirents].
    unfold visit. cbn [Dirent.isDirectory Dirent.isFile Dirent.kind Dirent.name dir file].
    cbv iota. rewrite Jb, Rb, Ja, Ra.
    change (Js.endsWith (Js.toLowerCase "b.md") ".md") with true.
    change (Js.endsWith (Js.toLowerCase "a.md") ".md") with true.
    reflexivity. }
  split; [exact Hscan|].
  intros fileInfos H. rewrite Hscan in H. injection H as <-.
  unfold assemble. cbn [fold_left]. unfold processInfo, fileSection.
  cbn [isDirectory fullPath name negb]. rewrite HA, HB. reflexivity.
Qed.

End Scenario.

(** C3 as the specification words it fails: the text does not begin with the file
    header of a.md. *)
Lemma C3_claimed_order_fails :
  exists fileInfos,
    findMarkdownRecursive Collation.localeCompare "/w" fsSub 2 "/r" "/r"
    = Ok fileInfos
    /\ outputContent (assemble fsSub fileInfos)
       <> [fileHeader "a.md"; "A"; separator;
           dirHeader "sub"; fileHeader "b.md"; "B"; separator].
Proof.
  eexists. split; [reflexivity|]. discriminate.
Qed.

Lemma C3_subdirectory_first_witness :
  findMarkdownRecursive Collation.localeCompare "/w" fsSub 2 "/r" "/r"
  = Ok [mkFileInfo "/r/sub" "sub" true "sub";
        mkFileInfo "/r/sub/b.md" "sub/b.md" false "b.md";
        mkFileInfo "/r/a.md" "a.md" false "a.md"]
  /\ forall fileInfos,
       findMarkdownRecursive Collation.localeCompare "/w" fsSub 2 "/r" "/r"
       = Ok fileInfos ->
       outputContent (assemble fsSub fileInfos)
       = [dirHeader "sub"; fileHeader "b.md"; "B"; separator;
          fileHeader "a.md"; "A"; separator].
Proof.
  apply (C3_subdirectory_first Collation.localeCompare "/w" fsSub ["r"]
           [file "a.md"; dir "sub"] "A" "B" 0).
  - repeat constructor.
  - now left.
  - reflexivity.
  - reflexivity.
  - reflexivity.
  - reflexivity.
Defined.

(** ** The order of siblings *)

Section Siblings.

Variable localeCompare : string -> string -> Z.
Variable cwd : string.
Variable fs : FileSystem.
Hypothesis localeCompare_consistent : consistent localeCompare.

Local Abbreviation scan := (findMarkdownRecursive localeCompare cwd fs).
Local Abbreviation entry := (entryOf cwd).
Local Abbreviation compareD := (compareDirents localeCompare).

Lemma localeCompare_flip a b :
  (localeCompare a b < 0)%Z -> (0 < localeCompare b a)%Z.
Proof.
  intros H. destruct localeCompare_consistent as [Hs _].
  specialize (Hs a b).
  destruct (localeCompare a b), (localeCompare b a); simpl in Hs;
    try discriminate; lia.
Qed.

Lemma localeCompare_total a b :
  (0 < localeCompare a b)%Z -> (localeCompare b a <= 0)%Z.
Proof.
  intros H. destruct localeCompare_consistent as [Hs _].
  specialize (Hs a b).
  destruct (localeCompare a b), (localeCompare b a); simpl in Hs;
    try discriminate; lia.
Qed.

Lemma compareD_total a b : (0 < compareD a b)%Z -> (compareD b a <= 0)%Z.
Proof.
  unfold compareDirents.
  destruct (Dirent.isDirectory a), (Dirent.isDirectory b); simpl;
    try lia; apply localeCompare_total.
Qed.

Lemma compareD_trans a b c :
  (compareD a b <= 0)%Z -> (compareD b c <= 0)%Z -> (compareD a c <= 0)%Z.
Proof.
  unfold compareDirents. destruct localeCompare_consistent as [_ Ht].
  destruct (Dirent.isDirectory a), (Dirent.isDirectory b),
    (Dirent.isDirectory c); simpl; try lia; apply Ht.
Qed.

Lemma compareD_before d1 d2 :
  siblingBefore localeCompare d1 d2 ->
  (compareD d1 d2 < 0)%Z /\ (0 < compareD d2 d1)%Z.
Proof.
  unfold compareDirents. intros [[H1 H2] | [He Hlt]].
  - rewrite H1, H2. simpl. lia.
  - rewrite He. apply localeCompare_flip in Hlt as Hgt.
    destruct (Dirent.isDirectory d2); simpl; lia.
Qed.

Lemma visit_kept rec dirPath rootDir d block :
  kept d = true ->
  visit cwd rec dirPath rootDir d [] = Ok block ->
  exists tail, block = entry dirPath rootDir d :: tail.
Proof.
  intros Hk. destruct (Dirent.isDirectory d) eqn:Hd.
  - rewrite visit_directory by assumption.
    destruct (rec _); [|discriminate..]. intros [= <-]. eauto.
  - rewrite visit_other by assumption. unfold kept in Hk.
    rewrite Hd in Hk. simpl in Hk. rewrite Hk. intros [= <-]. eauto.
Qed.

(** C2 as amended: for every directory that is scanned, the entries of its
    children come in the list with the directories before the documents and,
    within each kind, in the order of [localeCompare] on the names, the
    comparison of the host that the comparator of the sort calls. *)
Theorem C2_siblings_in_locale_order :
  siblingsOrdered localeCompare localeCompare cwd fs.
Proof.
  intros fuel dirPath rootDir dirents results d1 d2 Hls Hscan H1 H2 K1 K2 Hb.
  destruct fuel as [|fuel]; [discriminate|].
  rewrite (scan_unfold _ _ _ _ _ _ _ Hls) in Hscan.
  assert (Hsorted := sort_sorted compareD compareD_total compareD_trans dirents).
  apply (sort_In compareD) in H1, H2.
  destruct (compareD_before _ _ Hb) as [Hlt Hgt].
  apply in_split in H1 as (l1 & l2 & E). rewrite E in *.
  apply in_app_or in H2 as [H2 | [H2 | H2]].
  - exfalso. apply in_split in H2 as (a & b & ->).
    specialize (Hsorted a d2 b d1 l2). rewrite <- app_assoc in Hsorted.
    specialize (Hsorted eq_refl). lia.
  - subst d2. lia.
  - apply in_split in H2 as (a & b & ->).
    apply forDirents_split in Hscan as (r1 & block1 & r2 & _ & B1 & R2 & ->).
    apply forDirents_split in R2 as (r2a & block2 & r2b & _ & B2 & _ & ->).
    apply visit_kept in B1 as [tail1 ->]; [|assumption].
    apply visit_kept in B2 as [tail2 ->]; [|assumption].
    exists r1, (tail1 ++ r2a), (tail2 ++ r2b).
    simpl. now rewrite <- !app_assoc.
Qed.

End Siblings.

(** *** The collation is consistent *)

Lemma compareKeys_flip (k1 k2 : list nat) :
  Z.sgn (Collation.compareKeys k2 k1) = (- Z.sgn (Collation.compareKeys k1 k2))%Z.
Proof.
  revert k2. induction k1 as [|a k1 IH]; intros [|b k2]; simpl;
    try reflexivity.
  destruct (Nat.ltb_spec a b), (Nat.ltb_spec b a); try reflexivity; try lia.
  apply IH.
Qed.

Lemma compareKeys_trans (k1 k2 k3 : list nat) :
  (Collation.compareKeys k1 k2 <= 0)%Z -> (Collation.compareKeys k2 k3 <= 0)%Z ->
  (Collation.compareKeys k1 k3 <= 0)%Z.
Proof.
  revert k2 k3. induction k1 as [|a k1 IH]; intros [|b k2] [|c k3]; simpl;
    try lia.
  destruct (Nat.ltb_spec a b), (Nat.ltb_spec b a), (Nat.ltb_spec b c),
    (Nat.ltb_spec c b), (Nat.ltb_spec a c), (Nat.ltb_spec c a);
    try lia; apply IH.
Qed.

Lemma collation_consistent : consistent Collation.localeCompare.
Proof.
  split; unfold Collation.localeCompare; intros.
  - apply compareKeys_flip.
  - eapply compareKeys_trans; eauto.
Qed.

(** C2 as the specification words it fails: by code units "B.md" is before "a.md",
    and the list of the scanner has a.md first. *)
Lemma C2_code_unit_order_fails :
  ~ siblingsOrdered codeUnitCompare Collation.localeCompare "/w" fsCase.
Proof.
  intros H.
  assert (P : precedes (mkFileInfo "/r/B.md" "B.md" false "B.md")
                (mkFileInfo "/r/a.md" "a.md" false "a.md")
                [mkFileInfo "/r/a.md" "a.md" false "a.md";
                 mkFileInfo "/r/B.md" "B.md" false "B.md"]).
  { apply (H 1 "/r" "/r" [file "B.md"; file "a.md"] _
             (file "B.md") (file "a.md")).
    - reflexivity.
    - reflexivity.
    - now left.
    - right. now left.
    - reflexivity.
    - reflexivity.
    - right. split; reflexivity. }
  destruct P as (pre & mid & post & E).
  destruct pre as [|x pre]; [discriminate|].
  injection E as _ E.
  destruct pre as [|y pre]; [|destruct pre; discriminate].
  injection E as E. destruct mid; discriminate.
Qed.

Lemma C2_siblings_in_locale_order_witness :
  siblingsOrdered Collation.localeCompare Collation.localeCompare "/w" fsCase.
Proof.
  apply (C2_siblings_in_locale_order Collation.localeCompare "/w" fsCase).
  exact collation_consistent.
Defined.

(** Under the collation a.md comes before B.md. *)
Example locale_order_of_case :
  findMarkdownRecursive Collation.localeCompare "/w" fsCase 1 "/r" "/r"
  = Ok [mkFileInfo "/r/a.md" "a.md" false "a.md";
        mkFileInfo "/r/B.md" "B.md" false "B.md"].
Proof. reflexivity. Qed.

(** ** Where the entries lie *)

Section Located.

Variable localeCompare : string -> string -> Z.
Variable cwd : string.
Variable fs : FileSystem.
Variable rsegs : list string.
Hypothesis fs_wellFormed : wellFormed fs.
Hypothesis rsegs_valid : validNames rsegs.

Local Abbreviation rootDir := (absolute rsegs).
Local Abbreviation scan := (findMarkdownRecursive localeCompare cwd fs).
Local Abbreviation entry := (entryOf cwd).

Lemma entry_paths (segs : list string) (d : Dirent.t) :
  validNames segs -> validName (Dirent.name d) = true ->
  fullPath (entry (absolute (rsegs ++ segs)) rootDir d)
  = absolute (rsegs ++ segs ++ [Dirent.name d])
  /\ relativePath (entry (absolute (rsegs ++ segs)) rootDir d)
     = Js.join "/" (segs ++ [Dirent.name d]).
Proof.
  intros Hs Hn. unfold entryOf. simpl.
  rewrite join_absolute by auto using validNames_app.
  rewrite <- app_assoc. split; [reflexivity|].
  apply relative_absolute; auto using validNames_snoc. now destruct segs.
Qed.

Lemma listing_valid (p : string) (dirents : list Dirent.t) (d : Dirent.t) :
  readdir fs p = Some dirents -> In d dirents ->
  validName (Dirent.name d) = true.
Proof.
  intros Hls Hd. destruct (fs_wellFormed _ _ Hls) as [_ Hv].
  apply (proj1 (Forall_forall _ _) Hv). now apply in_map.
Qed.

Lemma scan_listing fuel p root results :
  scan fuel p root = Ok results ->
  exists f dirents,
    fuel = S f /\ readdir fs p = Some dirents
    /\ forDirents (visit cwd (fun sub => scan f sub root) p root)
         (Js.sort (compareDirents localeCompare) dirents) [] = Ok results.
Proof.
  destruct fuel as [|f]; [discriminate|]. simpl.
  destruct (readdir fs p) as [dirents|]; [|discriminate]. eauto.
Qed.

(** Every entry of a loop lies under one of the children of the loop. *)
Lemma forDirents_under fuel (segs : list string) (l : list Dirent.t) r :
  validNames segs ->
  (forall d, In d l -> validName (Dirent.name d) = true) ->
  forDirents
    (visit cwd (fun sub => scan fuel sub rootDir) (absolute (rsegs ++ segs)) rootDir)
    l [] = Ok r ->
  Forall (fun e => exists d, In d l /\ under segs (Dirent.name d) e) r.
Proof.
  revert segs l r. induction fuel as [|fuel IH]; intros segs l r Hs Hl.
  - apply forDirents_Forall; [discriminate | | constructor].
    intros d Hd _. exists d. split; [assumption|]. exists [].
    split; [constructor; auto|]. now apply entry_paths; auto.
  - apply forDirents_Forall; [| | constructor].
    + intros d sub Hd Hdir Hsub.
      rewrite join_absolute in Hsub by auto using validNames_app.
      rewrite <- app_assoc in Hsub.
      simpl in Hsub.
      destruct (readdir fs (absolute (rsegs ++ segs ++ [Dirent.name d])))
        as [dirents|] eqn:Hls; [|discriminate].
      apply IH in Hsub; [|auto using validNames_snoc|].
      * eapply Forall_impl; [|exact Hsub]. intros e (d' & Hd' & more & Hv & He).
        exists d. split; [assumption|]. exists (Dirent.name d' :: more).
        split; [constructor; auto|]. now rewrite He, <- app_assoc.
      * intros d' Hd'. apply sort_In in Hd'. eapply listing_valid; eauto.
    + intros d Hd _. exists d. split; [assumption|]. exists [].
      split; [constructor; auto|]. now apply entry_paths; auto.
Qed.

Lemma scan_under fuel (segs : list string) dirents results :
  validNames segs ->
  readdir fs (absolute (rsegs ++ segs)) = Some dirents ->
  scan fuel (absolute (rsegs ++ segs)) rootDir = Ok results ->
  Forall (fun e => exists d, In d dirents /\ under segs (Dirent.name d) e) results.
Proof.
  intros Hs Hls Hscan.
  apply scan_listing in Hscan as (f & dirents' & -> & Hls' & Hloop).
  rewrite Hls in Hls'. injection Hls' as <-.
  apply forDirents_under in Hloop; [|assumption|].
  - eapply Forall_impl; [|exact Hloop]. intros e (d & Hd & Hu).
    exists d. split; [now apply sort_In in Hd | assumption].
  - intros d Hd. apply sort_In in Hd. eapply listing_valid; eauto.
Qed.

(** The relative path of an entry is never the root sentinel. *)
Lemma under_not_root segs n e :
  validNames segs -> under segs n e -> relativePath e <> ".".
Proof.
  intros Hs (more & Hv & ->). apply join_not_dot.
  - now apply validNames_app.
  - now destruct segs.
Qed.

End Located.

(** ** The last headered directory *)

Section LastDirectory.

Variable localeCompare : string -> string -> Z.
Variable cwd : string.
Variable fs : FileSystem.

Local Abbreviation scan := (findMarkdownRecursive localeCompare cwd fs).

Lemma fileSection_last info st :
  lastProcessedDirRelative (fileSection fs info st)
  = lastProcessedDirRelative st.
Proof.
  unfold fileSection. destruct (negb (isDirectory info)); [|reflexivity].
  now destruct (readFile fs (fullPath info)).
Qed.

Lemma directoryHeaders_last info st :
  lastProcessedDirRelative (directoryHeaders info st) =
  if isDirectory info
     && negb (String.eqb (relativePath info) (lastProcessedDirRelative st))
  then relativePath info
  else if negb (isDirectory info)
          && negb (String.eqb (Path.dirname (relativePath info))
                     (lastProcessedDirRelative st))
          && negb (String.eqb (Path.dirname (relativePath info)) ".")
  then Path.dirname (relativePath info)
  else lastProcessedDirRelative st.
Proof.
  unfold directoryHeaders.
  destruct (isDirectory info && _); [reflexivity|].
  now destruct (negb (isDirectory info) && _ && _).
Qed.

Lemma processInfo_last st info :
  let last := lastProcessedDirRelative st in
  let last' := lastProcessedDirRelative (processInfo fs st info) in
  last' = last
  \/ (isDirectory info = true /\ last' = relativePath info)
  \/ (isDirectory info = false /\ last' = Path.dirname (relativePath info)
      /\ last' <> ".").
Proof.
  cbv zeta. unfold processInfo.
  rewrite fileSection_last, directoryHeaders_last.
  destruct (isDirectory info); simpl.
  - destruct (negb _); auto.
  - destruct (String.eqb (Path.dirname (relativePath info))
                (lastProcessedDirRelative st)); simpl; auto.
    destruct (String.eqb_spec (Path.dirname (relativePath info)) ".");
      simpl; auto.
Qed.

(** The trace lists the state after each prefix of the entries. *)
Lemma lastTrace_prefixes st fileInfos :
  lastTrace fs st fileInfos =
  map (fun k => lastProcessedDirRelative
                  (fold_left (processInfo fs) (firstn k fileInfos) st))
    (seq 0 (S (List.length fileInfos))).
Proof.
  revert st. induction fileInfos as [|info rest IH]; intros st;
    [reflexivity|].
  cbn [lastTrace List.length]. rewrite IH.
  change (seq 0 (S (S (List.length rest))))
    with (0 :: seq 1 (S (List.length rest))).
  rewrite <- seq_shift, map_cons, map_map. reflexivity.
Qed.

(** C8 as amended: during the pass over the list of the scanner,
    [lastProcessedDirRelative] starts at the root sentinel "."; an entry
    leaves it as it is or sets it, a directory entry to its own relative path
    and a document entry to its parent directory; once it differs from the
    root sentinel it is never set back to it. *)
Theorem C8_last_directory_transitions (rsegs : list string) fuel fileInfos :
  wellFormed fs -> validNames rsegs ->
  scan fuel (absolute rsegs) (absolute rsegs) = Ok fileInfos ->
  lastProcessedDirRelative (assemble fs []) = "."
  /\ forall pre info post,
       fileInfos = pre ++ info :: post ->
       let last := lastProcessedDirRelative (assemble fs pre) in
       let last' := lastProcessedDirRelative (assemble fs (pre ++ [info])) in
       (last' = last
        \/ (isDirectory info = true /\ last' = relativePath info)
        \/ (isDirectory info = false
            /\ last' = Path.dirname (relativePath info)))
       /\ (last <> "." -> last' <> ".").
Proof.
  intros Hwf Hr Hscan. split; [reflexivity|].
  intros pre info post E. cbv zeta. rewrite assemble_app. simpl fold_left.
  assert (Hroot : relativePath info <> ".").
  { destruct (scan_listing _ _ _ _ _ _ _ Hscan) as (f & dirents & _ & Hls & _).
    rewrite <- (app_nil_r rsegs) in Hscan at 1. rewrite <- (app_nil_r rsegs) in Hls.
    pose proof (scan_under _ _ _ _ Hwf Hr _ [] _ _ (Forall_nil _) Hls Hscan) as H.
    assert (Hin : In info fileInfos) by (rewrite E; apply in_elt).
    apply (proj1 (Forall_forall _ _) H) in Hin as (d & _ & Hu).
    eapply under_not_root; [|exact Hu]. constructor. }
  destruct (processInfo_last (assemble fs pre) info) as [H | [[Hd H] | (Hd & H & Hn)]].
  - split; [now left|]. now rewrite H.
  - split; [right; left; now split|]. now rewrite H.
  - split; [right; right; now split|]. auto.
Qed.

End LastDirectory.

(** C8 as the specification words it fails: after the entries of a/b the document
    a/y.md sets the state back to a, a value that it had left. *)
Lemma C8_rolled_back :
  exists fileInfos,
    findMarkdownRecursive Collation.localeCompare "/w" fsNested 3 "/r" "/r"
    = Ok fileInfos
    /\ lastTrace fsNested initialState fileInfos
       = ["."; "a"; "a/b"; "a/b"; "a"]
    /\ ~ neverReturns (lastTrace fsNested initialState fileInfos).
Proof.
  eexists. split; [reflexivity|]. split; [reflexivity|].
  intros H. specialize (H ["."] "a" ["a/b"; "a/b"] [] eq_refl).
  inversion H as [|? ? E _]. discriminate.
Qed.

(** *** The file systems of the examples are well formed *)

Lemma fileSystemOf_wellFormed dirs files :
  Forall (fun entry => NoDup (map Dirent.name (snd entry))
                       /\ validNames (map Dirent.name (snd entry))) dirs ->
  wellFormed (fileSystemOf dirs files).
Proof.
  intros H p dirents. simpl.
  induction H as [|[q l] dirs Hl _ IH]; simpl; [discriminate|].
  destruct (String.eqb p q); [|exact IH]. now intros [= <-].
Qed.

Ltac listings_ok :=
  apply fileSystemOf_wellFormed;
  repeat (apply Forall_cons; [split|]); try apply Forall_nil;
  repeat constructor; simpl; intuition discriminate.

Lemma fsNested_wellFormed : wellFormed fsNested.
Proof. listings_ok. Qed.

Lemma fsEmptyDir_wellFormed : wellFormed fsEmptyDir.
Proof. listings_ok. Qed.

Lemma fsDeep_wellFormed : wellFormed fsDeep.
Proof. listings_ok. Qed.

Lemma C8_last_directory_transitions_witness :
  lastProcessedDirRelative (assemble fsNested []) = "."
  /\ forall pre info post,
       [mkFileInfo "/r/a" "a" true "a";
        mkFileInfo "/r/a/b" "a/b" true "b";
        mkFileInfo "/r/a/b/x.md" "a/b/x.md" false "x.md";
        mkFileInfo "/r/a/y.md" "a/y.md" false "y.md"] = pre ++ info :: post ->
       let last := lastProcessedDirRelative (assemble fsNested pre) in
       let last' := lastProcessedDirRelative (assemble fsNested (pre ++ [info])) in
       (last' = last
        \/ (isDirectory info = true /\ last' = relativePath info)
        \/ (isDirectory info = false
            /\ last' = Path.dirname (relativePath info)))
       /\ (last <> "." -> last' <> ".").
Proof.
  apply (C8_last_directory_transitions Collation.localeCompare "/w" fsNested
           ["r"] 3).
  - exact fsNested_wellFormed.
  - repeat constructor.
  - reflexivity.
Defined.

(** ** Paths below a directory *)

Lemma startsWith_prefix (x a b : string) :
  Js.startsWith x (a +++ b) = true -> Js.startsWith x a = true.
Proof.
  revert x. induction a as [|c a IH]; intros x; [reflexivity|].
  simpl. destruct x as [|d x]; [discriminate|].
  intros H. apply andb_prop in H as [Hc H]. now rewrite Hc, (IH _ H).
Qed.

(** Two names followed by the separator, or by the end, agree when one
    starts the other. *)
Lemma startsWith_name (n' n rest : string) :
  noSep n' = true -> noSep n = true ->
  (rest = "" \/ exists t, rest = String Path.sepChar t) ->
  Js.startsWith (n' +++ rest) (n +++ "/") = true -> n' = n.
Proof.
  revert n'. induction n as [|c n IH]; intros n' Hn' Hn Hrest H.
  - destruct n' as [|c' n']; [reflexivity|]. simpl in *.
    apply andb_prop in Hn' as [Hc' _]. apply andb_prop in H as [H _].
    unfold Path.sepChar in Hc'. now rewrite H in Hc'.
  - simpl in Hn. apply andb_prop in Hn as [Hc Hn].
    destruct n' as [|c' n']; simpl in *.
    + exfalso. destruct Hrest as [-> | [t ->]]; [discriminate|].
      apply andb_prop in H as [H _]. apply Ascii.eqb_eq in H. subst c.
      discriminate.
    + apply andb_prop in Hn' as [_ Hn'].
      apply andb_prop in H as [E H]. apply Ascii.eqb_eq in E. subst c'.
      f_equal. now apply IH.
Qed.

Lemma join_tail (n : string) (more : list string) :
  exists rest,
    Js.join "/" (n :: more) = n +++ rest
    /\ (rest = "" \/ exists t, rest = String Path.sepChar t).
Proof.
  destruct more as [|m more].
  - exists "". simpl. split; [now rewrite append_empty_r | now left].
  - exists ("/" +++ Js.join "/" (m :: more)). split; [reflexivity|].
    right. eexists. reflexivity.
Qed.

Lemma join_app_cons (segs : list string) (n : string) (more : list string) :
  segs <> [] ->
  Js.join "/" (segs ++ n :: more)
  = Js.join "/" segs +++ "/" +++ Js.join "/" (n :: more).
Proof. intros H. apply join_app; [assumption | discriminate]. Qed.

(** A path through the child [n'] is below the child [n] only if the two
    are the same child. *)
Lemma below_same_child (segs : list string) (n n' : string)
    (more : list string) (e : FileInfo) :
  validName n = true -> validName n' = true ->
  relativePath e = Js.join "/" (segs ++ n' :: more) ->
  below (Js.join "/" (segs ++ [n])) e = true -> n' = n.
Proof.
  intros Hn Hn' E H. unfold below in H. rewrite E in H. clear E.
  destruct (join_tail n' more) as (rest & Erest & Hrest).
  destruct segs as [|a segs].
  - simpl app in H. rewrite Erest in H.
    change (Js.join "/" [n]) with n in H.
    eapply startsWith_name; eauto using validName_noSep.
  - rewrite join_app_cons, (join_app_cons (a :: segs) n []) in H
      by discriminate.
    rewrite !append_assoc, startsWith_cancel in H.
    rewrite (startsWith_cancel "/") in H.
    change (Js.join "/" [n]) with n in H. rewrite Erest in H.
    eapply startsWith_name; eauto using validName_noSep.
Qed.

Lemma below_self (p : string) (e : FileInfo) :
  relativePath e = p -> below p e = false.
Proof.
  intros E. unfold below. rewrite E. apply startsWith_longer.
  rewrite append_length. simpl. lia.
Qed.

Lemma below_descendant (segs more : list string) (e : FileInfo) :
  segs <> [] -> more <> [] ->
  relativePath e = Js.join "/" (segs ++ more) ->
  below (Js.join "/" segs) e = true.
Proof.
  intros Hs Hm E. unfold below. rewrite E, join_app by assumption.
  rewrite <- append_assoc. apply startsWith_append.
Qed.

Lemma below_parent (segs : list string) (n : string) (e : FileInfo) :
  segs <> [] ->
  below (Js.join "/" (segs ++ [n])) e = true ->
  below (Js.join "/" segs) e = true.
Proof.
  intros Hs. unfold below. rewrite join_snoc by assumption.
  rewrite !append_assoc. rewrite <- (append_assoc (Js.join "/" segs) "/").
  apply startsWith_prefix.
Qed.

(** ** The pre-order of the list *)

Section Preorder.

Variable localeCompare : string -> string -> Z.
Variable cwd : string.
Variable fs : FileSystem.
Variable rsegs : list string.
Hypothesis fs_wellFormed : wellFormed fs.
Hypothesis rsegs_valid : validNames rsegs.

Local Abbreviation rootDir := (absolute rsegs).
Local Abbreviation scan := (findMarkdownRecursive localeCompare cwd fs).
Local Abbreviation entry := (entryOf cwd).
Local Abbreviation compareD := (compareDirents localeCompare).

(** The entries of the other children are neither below the child [d] nor
    at its path. *)
Lemma other_child_outside (segs : list string) (d : Dirent.t)
    (others : list Dirent.t) (r : list FileInfo) :
  validNames segs -> validName (Dirent.name d) = true ->
  ~ In (Dirent.name d) (map Dirent.name others) ->
  Forall (fun e => exists d', In d' others /\ under segs (Dirent.name d') e) r ->
  Forall (fun e => below (Js.join "/" (segs ++ [Dirent.name d])) e = false
                   /\ relativePath e <> Js.join "/" (segs ++ [Dirent.name d])) r.
Proof.
  intros Hs Hn Hnot H. eapply Forall_impl; [|exact H].
  intros e (d' & Hd' & more & Hv & He).
  assert (Hne : Dirent.name d' <> Dirent.name d).
  { intros E. apply Hnot. rewrite <- E. now apply in_map. }
  inversion Hv as [|? ? Hn' Hmore]; subst. split.
  - destruct (below _ e) eqn:Hb; [|reflexivity].
    exfalso. apply Hne. eapply below_same_child; eauto.
  - intros E. rewrite He in E. apply join_injective in E.
    + apply app_inv_head in E. injection E as E _. auto.
    + now apply validNames_app.
    + now apply validNames_snoc.
Qed.

(** The block of a sub-directory in the list of its parent. *)
Lemma scan_child_block fuel (segs : list string) dirents d r :
  validNames segs ->
  readdir fs (absolute (rsegs ++ segs)) = Some dirents ->
  In d dirents -> Dirent.isDirectory d = true ->
  scan fuel (absolute (rsegs ++ segs)) rootDir = Ok r ->
  exists f before after pre sub post,
    fuel = S f
    /\ Js.sort compareD dirents = before ++ d :: after
    /\ r = pre ++ entry (absolute (rsegs ++ segs)) rootDir d :: sub ++ post
    /\ scan f (absolute (rsegs ++ segs ++ [Dirent.name d])) rootDir = Ok sub
    /\ forDirents
         (visit cwd (fun p => scan f p rootDir) (absolute (rsegs ++ segs)) rootDir)
         after [] = Ok post
    /\ Forall (fun e => below (Js.join "/" (segs ++ [Dirent.name d])) e = true) sub
    /\ Forall (fun e => below (Js.join "/" (segs ++ [Dirent.name d])) e = false
                        /\ relativePath e <> Js.join "/" (segs ++ [Dirent.name d]))
         (pre ++ post).
Proof.
  intros Hs Hls Hd Hdir Hscan.
  assert (Hn : validName (Dirent.name d) = true) by (eapply listing_valid; eauto).
  apply scan_listing in Hscan as (f & dirents' & -> & Hls' & Hloop).
  rewrite Hls in Hls'. injection Hls' as <-.
  assert (Hperm := sort_perm compareD dirents).
  assert (Hin : In d (Js.sort compareD dirents)) by now apply sort_In.
  apply in_split in Hin as (before & after & Esort). rewrite Esort in Hloop.
  assert (Hvalid : forall d', In d' (before ++ d :: after) ->
                              validName (Dirent.name d') = true).
  { intros d' Hd'. rewrite <- Esort in Hd'. apply sort_In in Hd'.
    eapply listing_valid; eauto. }
  assert (Hnodup : ~ In (Dirent.name d) (map Dirent.name (before ++ after))).
  { destruct (fs_wellFormed _ _ Hls) as [Hnd _].
    apply (Permutation_map Dirent.name) in Hperm. rewrite Esort in Hperm.
    apply (Permutation_NoDup Hperm) in Hnd. rewrite map_app in Hnd.
    simpl in Hnd. apply NoDup_remove_2 in Hnd. now rewrite map_app. }
  apply forDirents_split in Hloop as (pre & block & post & Hpre & Hblock & Hpost & ->).
  rewrite visit_directory in Hblock by assumption.
  rewrite join_absolute in Hblock by auto using validNames_app.
  rewrite <- app_assoc in Hblock.
  destruct (scan f (absolute (rsegs ++ segs ++ [Dirent.name d])) rootDir)
    as [sub| |] eqn:Hsub; [|discriminate..].
  injection Hblock as <-.
  exists f, before, after, pre, sub, post.
  repeat split; auto.
  - destruct (scan_listing _ _ _ _ _ _ _ Hsub) as (f' & ds & _ & Hls' & _).
    pose proof (scan_under _ _ _ _ fs_wellFormed rsegs_valid _ _ _ _
                  (validNames_snoc _ _ Hs Hn) Hls' Hsub) as Hu.
    eapply Forall_impl; [|exact Hu].
    intros e (d' & _ & more & _ & He).
    eapply below_descendant; [| |exact He]; [now destruct segs | discriminate].
  - apply forDirents_under in Hpre, Hpost; auto;
      try (intros d' Hd'; apply Hvalid, in_or_app; simpl; tauto).
    apply Forall_app. split.
    + apply (other_child_outside segs d before pre Hs Hn); [|exact Hpre].
      intros Hin. apply Hnodup. rewrite map_app. apply in_or_app. now left.
    + apply (other_child_outside segs d after post Hs Hn); [|exact Hpost].
      intros Hin. apply Hnodup. rewrite map_app. apply in_or_app. now right.
Qed.

Lemma forDirents_kept rec dirPath root l d r :
  forDirents (visit cwd rec dirPath root) l [] = Ok r ->
  In d l -> kept d = true -> In (entry dirPath root d) r.
Proof.
  intros Hloop Hd Hk. apply in_split in Hd as (l1 & l2 & ->).
  apply forDirents_split in Hloop as (r1 & block & r2 & _ & Hb & _ & ->).
  apply in_or_app. right. apply in_or_app. left.
  destruct (Dirent.isDirectory d) eqn:Hdir.
  - rewrite visit_directory in Hb by assumption.
    destruct (rec _); [|discriminate..]. injection Hb as <-. now left.
  - rewrite visit_other in Hb by assumption. unfold kept in Hk.
    rewrite Hdir in Hk. simpl in Hk. rewrite Hk in Hb.
    injection Hb as <-. now left.
Qed.

(** From the span of a directory in the whole list to the span of one of
    its sub-directories. *)
Lemma child_span R (segs : list string) f pre r post dirents d :
  validNames segs ->
  R = pre ++ r ++ post ->
  scan f (absolute (rsegs ++ segs)) rootDir = Ok r ->
  Forall (fun e => segs <> [] /\ below (Js.join "/" segs) e = false)
    (pre ++ post) ->
  readdir fs (absolute (rsegs ++ segs)) = Some dirents ->
  In d dirents -> Dirent.isDirectory d = true ->
  exists before after PRE sub POST f',
    Js.sort compareD dirents = before ++ d :: after
    /\ R = PRE ++ entry (absolute (rsegs ++ segs)) rootDir d :: sub ++ POST
    /\ scan f' (absolute (rsegs ++ segs ++ [Dirent.name d])) rootDir = Ok sub
    /\ (forall d2, In d2 after -> kept d2 = true ->
          In (entry (absolute (rsegs ++ segs)) rootDir d2) POST)
    /\ Forall (fun e => below (Js.join "/" (segs ++ [Dirent.name d])) e = true) sub
    /\ Forall (fun e => below (Js.join "/" (segs ++ [Dirent.name d])) e = false
                        /\ relativePath e <> Js.join "/" (segs ++ [Dirent.name d]))
         (PRE ++ POST).
Proof.
  intros Hs HR Hscan Hout Hls Hd Hdir.
  destruct (scan_child_block _ _ _ _ _ Hs Hls Hd Hdir Hscan)
    as (f' & before & after & pre1 & sub & post1 & _ & Esort & Er & Hsub
        & Hafter & Hin & Hnot).
  exists before, after, (pre ++ pre1), sub, (post1 ++ post), f'.
  split; [exact Esort|]. split.
  { rewrite HR, Er, <- !app_assoc. simpl. now rewrite <- !app_assoc. }
  split; [exact Hsub|]. split.
  { intros d2 H2 K2. apply in_or_app. left. eapply forDirents_kept; eauto. }
  split; [exact Hin|].
  assert (Houter : forall e, segs <> [] /\ below (Js.join "/" segs) e = false ->
            below (Js.join "/" (segs ++ [Dirent.name d])) e = false
            /\ relativePath e <> Js.join "/" (segs ++ [Dirent.name d])).
  { intros e [Hne Hb]. split.
    - destruct (below (Js.join "/" (segs ++ _)) e) eqn:E; [|reflexivity].
      apply below_parent in E; [congruence | assumption].
    - intros E.
      rewrite (below_descendant segs [Dirent.name d] e Hne) in Hb;
        [discriminate | discriminate | exact E]. }
  apply Forall_app in Hout as [Hpre Hpost], Hnot as [Hpre1 Hpost1].
  repeat (apply Forall_app; split); auto;
    (eapply Forall_impl; [|eassumption]); cbv beta; auto.
Qed.

(** The list of a visited directory is a run of consecutive entries of the
    whole list, and no entry outside the run is below the directory. *)
Lemma visited_span fuel R p :
  scan fuel rootDir rootDir = Ok R ->
  visited fs rootDir p ->
  exists segs f pre r post,
    p = absolute (rsegs ++ segs) /\ validNames segs
    /\ R = pre ++ r ++ post
    /\ scan f p rootDir = Ok r
    /\ Forall (fun e => segs <> [] /\ below (Js.join "/" segs) e = false)
         (pre ++ post).
Proof.
  intros Hscan Hv. induction Hv as [|p dirents d Hv IH Hls Hd Hdir].
  - exists [], fuel, [], R, []. rewrite !app_nil_r.
    repeat split; auto; constructor.
  - destruct IH as (segs & f & pre & r & post & -> & Hs & HR & Hr & Hout).
    assert (Hn : validName (Dirent.name d) = true)
      by (eapply listing_valid; eauto).
    destruct (child_span _ _ _ _ _ _ _ _ Hs HR Hr Hout Hls Hd Hdir)
      as (before & after & PRE & sub & POST & f' & _ & HR' & Hsub & _ & _ & Hnot).
    exists (segs ++ [Dirent.name d]), f',
      (PRE ++ [entry (absolute (rsegs ++ segs)) rootDir d]), sub, POST.
    rewrite join_absolute, <- app_assoc by auto using validNames_app.
    split; [reflexivity|]. split; [now apply validNames_snoc|].
    split; [rewrite HR', <- !app_assoc; reflexivity|].
    split; [exact Hsub|].
    assert (Hne : segs ++ [Dirent.name d] <> []) by now destruct segs.
    apply Forall_app in Hnot as [Hpre Hpost].
    repeat (apply Forall_app; split).
    + eapply Forall_impl; [|exact Hpre]. intros e [Hb _]. auto.
    + constructor; [|constructor]. split; [assumption|].
      apply below_self. now apply entry_paths.
    + eapply Forall_impl; [|exact Hpost]. intros e [Hb _]. auto.
Qed.

(** C5: the list of the scanner is a pre-order traversal.  For every
    sub-directory [d] of a visited directory the list is [pre], the entry of
    [d], [sub], [post], where [sub] is the list of the scan of [d], every
    entry of [sub] lies below [d], no entry of [pre] or [post] does, and the
    entries of the siblings that the sort puts after [d] are in [post]. *)
Theorem C5_preorder fuel R p dirents d :
  scan fuel rootDir rootDir = Ok R ->
  visited fs rootDir p ->
  readdir fs p = Some dirents ->
  In d dirents -> Dirent.isDirectory d = true ->
  exists before after pre sub post,
    Js.sort compareD dirents = before ++ d :: after
    /\ R = pre ++ entry p rootDir d :: sub ++ post
    /\ (exists f, scan f (Path.join p (Dirent.name d)) rootDir = Ok sub)
    /\ Forall (fun e => below (relativePath (entry p rootDir d)) e = true) sub
    /\ Forall (fun e => below (relativePath (entry p rootDir d)) e = false)
         (pre ++ post)
    /\ (forall d2, In d2 after -> kept d2 = true ->
          In (entry p rootDir d2) post).
Proof.
  intros Hscan Hv Hls Hd Hdir.
  destruct (visited_span _ _ _ Hscan Hv)
    as (segs & f & pre & r & post & -> & Hs & HR & Hr & Hout).
  assert (Hn : validName (Dirent.name d) = true)
    by (eapply listing_valid; eauto).
  destruct (child_span _ _ _ _ _ _ _ _ Hs HR Hr Hout Hls Hd Hdir)
    as (before & after & PRE & sub & POST & f' & Esort & HR' & Hsub & Hafter
        & Hin & Hnot).
  exists before, after, PRE, sub, POST.
  destruct (entry_paths cwd rsegs rsegs_valid segs d Hs Hn) as [_ Hrel].
  rewrite Hrel, join_absolute, <- app_assoc by auto using validNames_app.
  repeat split; eauto.
  eapply Forall_impl; [|exact Hnot]. now intros e [Hb _].
Qed.

End Preorder.

(** ** The header of a directory entry *)

Section Headers.

Variable localeCompare : string -> string -> Z.
Variable cwd : string.
Variable fs : FileSystem.
Variable rsegs : list string.
Hypothesis fs_wellFormed : wellFormed fs.
Hypothesis rsegs_valid : validNames rsegs.

Local Abbreviation rootDir := (absolute rsegs).
Local Abbreviation scan := (findMarkdownRecursive localeCompare cwd fs).
Local Abbreviation entry := (entryOf cwd).

(** The output only grows. *)
Lemma addParentHeaders_keeps x parts st :
  In x (outputContent st) ->
  In x (outputContent (addParentHeaders parts st)).
Proof.
  unfold addParentHeaders. generalize "". revert st.
  induction parts as [|part parts IH]; intros st cum H; [exact H|].
  change (fold_left (fun acc part => addParentHeader part acc)
            (part :: parts) (cum, st))
    with (fold_left (fun acc part => addParentHeader part acc) parts
            (addParentHeader part (cum, st))).
  rewrite addParentHeader_step. cbv zeta.
  destruct (negb _); apply IH; [|exact H].
  unfold push. simpl. apply in_or_app. now left.
Qed.

Lemma processInfo_keeps x st info :
  In x (outputContent st) -> In x (outputContent (processInfo fs st info)).
Proof.
  intros H. unfold processInfo.
  assert (H1 : In x (outputContent (directoryHeaders info st))).
  { unfold directoryHeaders. destruct (isDirectory info && _).
    - simpl. apply in_or_app. now left.
    - destruct (negb (isDirectory info) && _ && _); [|exact H].
      simpl. now apply addParentHeaders_keeps. }
  unfold fileSection. destruct (negb (isDirectory info)); [|exact H1].
  destruct (readFile fs (fullPath info)); unfold push; simpl;
    repeat (apply in_or_app; left); exact H1.
Qed.

Lemma fold_keeps x fileInfos st :
  In x (outputContent st) ->
  In x (outputContent (fold_left (processInfo fs) fileInfos st)).
Proof.
  revert st. induction fileInfos as [|info rest IH]; intros st H; [exact H|].
  simpl. now apply IH, processInfo_keeps.
Qed.

(** A directory entry whose path is not the last headered directory gets
    its header. *)
Lemma processInfo_header st info :
  isDirectory info = true ->
  relativePath info <> lastProcessedDirRelative st ->
  In (dirHeader (relativePath info)) (outputContent (processInfo fs st info)).
Proof.
  intros Hd Hne. unfold processInfo, fileSection, directoryHeaders.
  rewrite Hd. apply String.eqb_neq in Hne. rewrite Hne. simpl.
  apply in_or_app. right. now left.
Qed.

(** Where the last headered directory comes from. *)
Lemma assemble_last pre :
  lastProcessedDirRelative (assemble fs pre) = "."
  \/ exists e, In e pre
       /\ ((isDirectory e = true
            /\ lastProcessedDirRelative (assemble fs pre) = relativePath e)
           \/ (isDirectory e = false
               /\ lastProcessedDirRelative (assemble fs pre)
                  = Path.dirname (relativePath e))).
Proof.
  induction pre as [|info pre IH] using rev_ind; [now left|].
  rewrite assemble_app. simpl fold_left.
  destruct (processInfo_last fs (assemble fs pre) info)
    as [H | [[Hd H] | (Hd & H & _)]].
  - rewrite H. destruct IH as [IH | (e & He & IH)]; [now left|].
    right. exists e. split; [apply in_or_app; now left | exact IH].
  - right. exists info. split; [apply in_or_app; right; now left|]. now left.
  - right. exists info. split; [apply in_or_app; right; now left|]. now right.
Qed.

(** The parent of an entry that is not below [q] is not [q]. *)
Lemma dirname_outside (segs : list string) (n n' : string) e :
  validNames segs -> validName n = true ->
  under [] n' e ->
  below (Js.join "/" (segs ++ [n])) e = false ->
  Path.dirname (relativePath e) <> Js.join "/" (segs ++ [n]).
Proof.
  intros Hs Hn (more & Hv & He) Hb E.
  simpl app in He.
  destruct (exists_last (l := n' :: more) ltac:(discriminate)) as (l & nm & El).
  rewrite El in He, Hv. apply Forall_app in Hv as [Hl Hnm].
  inversion Hnm as [|? ? Hnm' _]; subst.
  destruct l as [|a l].
  - rewrite He in E. simpl in E. rewrite dirname_name in E by assumption.
    symmetry in E. revert E. apply join_not_dot.
    + now apply validNames_snoc.
    + now destruct segs.
  - rewrite He, dirname_join in E by (auto; discriminate).
    apply join_injective in E; auto using validNames_snoc.
    rewrite E in He.
    rewrite (below_descendant (segs ++ [n]) [nm] e) in Hb;
      [discriminate | now destruct segs | discriminate | exact He].
Qed.

(** C4 as amended: every sub-directory of a visited directory, whether or
    not a qualifying document lies anywhere below it, has its entry in the
    list of the scanner, and the output holds the directory header of that
    entry. *)
Theorem C4_directory_header fuel fileInfos p dirents d :
  scan fuel rootDir rootDir = Ok fileInfos ->
  visited fs rootDir p ->
  readdir fs p = Some dirents ->
  In d dirents -> Dirent.isDirectory d = true ->
  In (entry p rootDir d) fileInfos
  /\ isDirectory (entry p rootDir d) = true
  /\ In (dirHeader (relativePath (entry p rootDir d)))
       (outputContent (assemble fs fileInfos)).
Proof.
  intros Hscan Hv Hls Hd Hdir.
  destruct (visited_span _ _ _ _ fs_wellFormed rsegs_valid _ _ _ Hscan Hv)
    as (segs & f & pre & r & post & -> & Hs & HR & Hr & Hout).
  assert (Hn : validName (Dirent.name d) = true)
    by (eapply listing_valid; eauto).
  destruct (child_span _ _ _ _ fs_wellFormed rsegs_valid _ _ _ _ _ _ _ _
              Hs HR Hr Hout Hls Hd Hdir)
    as (before & after & PRE & sub & POST & f' & _ & HR' & _ & _ & _ & Hnot).
  destruct (entry_paths cwd rsegs rsegs_valid segs d Hs Hn) as [_ Hrel].
  split; [rewrite HR'; apply in_elt|]. split; [exact Hdir|].
  rewrite HR'.
  change (PRE ++ entry (absolute (rsegs ++ segs)) rootDir d :: sub ++ POST)
    with (PRE ++ [entry (absolute (rsegs ++ segs)) rootDir d] ++ sub ++ POST).
  rewrite assemble_app, fold_left_app. apply fold_keeps. simpl fold_left.
  apply processInfo_header; [exact Hdir|].
  rewrite Hrel. apply Forall_app in Hnot as [Hpre _].
  assert (Hroot : forall e, In e PRE -> exists n', under [] n' e).
  { destruct (scan_listing _ _ _ _ _ _ _ Hscan) as (f0 & ds & _ & Hls0 & _).
    rewrite <- (app_nil_r rsegs) in Hscan at 1.
    rewrite <- (app_nil_r rsegs) in Hls0.
    pose proof (scan_under _ _ _ _ fs_wellFormed rsegs_valid _ [] _ _
                  (Forall_nil _) Hls0 Hscan) as H.
    intros e He.
    assert (Hin : In e fileInfos) by (rewrite HR'; apply in_or_app; now left).
    apply (proj1 (Forall_forall _ _) H) in Hin as (d' & _ & Hu). eauto. }
  destruct (assemble_last PRE) as [E | (e & He & [[_ E] | [_ E]])];
    rewrite E.
  - apply join_not_dot; [now apply validNames_snoc | now destruct segs].
  - apply (proj1 (Forall_forall _ _) Hpre) in He as [_ Hne]. congruence.
  - destruct (Hroot _ He) as (n' & Hu).
    apply (proj1 (Forall_forall _ _) Hpre) in He as [Hb _].
    intros E'. symmetry in E'. revert E'. eapply dirname_outside; eauto.
Qed.

End Headers.

(** C4 as the specification words it fails: the directory e is empty, and the
    output holds its header. *)
Lemma C4_empty_directory_has_header :
  ~ emptyDirectoriesSilent Collation.localeCompare "/w" fsEmptyDir "/r".
Proof.
  intros H.
  destruct (H 2 [mkFileInfo "/r/e" "e" true "e"] "/r" [dir "e"] (dir "e") 1 [])
    as [_ Hno].
  - reflexivity.
  - constructor.
  - reflexivity.
  - now left.
  - reflexivity.
  - reflexivity.
  - constructor.
  - apply Hno. now left.
Qed.

Lemma valid_root_r : validNames ["r"].
Proof. repeat constructor. Qed.

Lemma fsDeep_visits_x : visited fsDeep "/r" "/r/x".
Proof.
  apply (visited_child fsDeep "/r" "/r" [symlink "link.md"; dir "x"] (dir "x")).
  - constructor.
  - reflexivity.
  - right. now left.
  - reflexivity.
Qed.

Lemma fsNested_visits_a : visited fsNested "/r" "/r/a".
Proof.
  apply (visited_child fsNested "/r" "/r" [dir "a"] (dir "a")).
  - constructor.
  - reflexivity.
  - now left.
  - reflexivity.
Qed.

(** The directory x/y of [fsDeep], two levels down. *)
Lemma C4_directory_header_witness :
  In (entryOf "/w" "/r/x" "/r" (dir "y"))
     [mkFileInfo "/r/x" "x" true "x"; mkFileInfo "/r/x/y" "x/y" true "y";
      mkFileInfo "/r/x/y/z.md" "x/y/z.md" false "z.md"]
  /\ isDirectory (entryOf "/w" "/r/x" "/r" (dir "y")) = true
  /\ In (dirHeader (relativePath (entryOf "/w" "/r/x" "/r" (dir "y"))))
       (outputContent
          (assemble fsDeep
             [mkFileInfo "/r/x" "x" true "x"; mkFileInfo "/r/x/y" "x/y" true "y";
              mkFileInfo "/r/x/y/z.md" "x/y/z.md" false "z.md"])).
Proof.
  apply (C4_directory_header Collation.localeCompare "/w" fsDeep ["r"]
           fsDeep_wellFormed valid_root_r 3 _ "/r/x" [dir "y"] (dir "y")).
  - reflexivity.
  - exact fsDeep_visits_x.
  - reflexivity.
  - now left.
  - reflexivity.
Defined.

(** The directory a/b of [fsNested]: its entry, then a/b/x.md, then the
    document a/y.md of its parent. *)
Lemma C5_preorder_witness :
  exists before after pre sub post,
    Js.sort (compareDirents Collation.localeCompare) [file "y.md"; dir "b"]
    = before ++ dir "b" :: after
    /\ [mkFileInfo "/r/a" "a" true "a"; mkFileInfo "/r/a/b" "a/b" true "b";
        mkFileInfo "/r/a/b/x.md" "a/b/x.md" false "x.md";
        mkFileInfo "/r/a/y.md" "a/y.md" false "y.md"]
       = pre ++ entryOf "/w" "/r/a" "/r" (dir "b") :: sub ++ post
    /\ (exists f,
          findMarkdownRecursive Collation.localeCompare "/w" fsNested f
            (Path.join "/r/a" "b") "/r" = Ok sub)
    /\ Forall (fun e => below (relativePath (entryOf "/w" "/r/a" "/r" (dir "b"))) e
                        = true) sub
    /\ Forall (fun e => below (relativePath (entryOf "/w" "/r/a" "/r" (dir "b"))) e
                        = false) (pre ++ post)
    /\ (forall d2, In d2 after -> kept d2 = true ->
          In (entryOf "/w" "/r/a" "/r" d2) post).
Proof.
  apply (C5_preorder Collation.localeCompare "/w" fsNested ["r"]
           fsNested_wellFormed valid_root_r 3 _ "/r/a"
           [file "y.md"; dir "b"] (dir "b")).
  - reflexivity.
  - exact fsNested_visits_a.
  - reflexivity.
  - right. now left.
  - reflexivity.
Defined.

(** ** Complements *)

Section Complements.

Variable localeCompare : string -> string -> Z.
Variable cwd : string.
Variable fs : FileSystem.

Local Abbreviation scan := (findMarkdownRecursive localeCompare cwd fs).

(** A run over a tree of bounded depth ends. *)
Lemma run_total fuel args :
  (forall arg, args = [arg] -> depthWithin fs fuel (Path.resolve cwd arg)) ->
  run localeCompare cwd fs fuel args <> None.
Proof.
  intros H. unfold run. destruct args as [|arg [|? ?]]; try discriminate.
  destruct (stat fs (Path.resolve cwd arg)); try discriminate.
  specialize (H arg eq_refl).
  apply (scan_total localeCompare cwd fs _ _ (Path.resolve cwd arg)) in H.
  destruct (scan fuel _ _); [|discriminate|congruence].
  destruct (writeFile fs _ _); discriminate.
Qed.

(** A document that is read: header, content, separator. *)
Lemma processInfo_read st info content :
  isDirectory info = false ->
  readFile fs (fullPath info) = Some content ->
  processInfo fs st info =
  mkState
    (outputContent (directoryHeaders info st)
     ++ [fileHeader (name info); content; separator])
    (lastProcessedDirRelative (directoryHeaders info st))
    (warned (directoryHeaders info st)).
Proof.
  intros Hdoc Hread. unfold processInfo, fileSection. rewrite Hdoc, Hread.
  cbv [negb]. unfold push.
  cbn [outputContent lastProcessedDirRelative warned].
  now rewrite <- !app_assoc.
Qed.

(** The parent of a document of the list is "." or a path of valid names:
    the reconciliation of [C1_reconciliation] applies to the documents that
    the scanner lists. *)
Lemma scan_parent_valid (rsegs : list string) fuel fileInfos e :
  wellFormed fs -> validNames rsegs ->
  scan fuel (absolute rsegs) (absolute rsegs) = Ok fileInfos ->
  In e fileInfos ->
  Path.dirname (relativePath e) = "."
  \/ validNames (Js.split Path.sepChar (Path.dirname (relativePath e))).
Proof.
  intros Hwf Hr Hscan He.
  destruct (scan_listing _ _ _ _ _ _ _ Hscan) as (f & dirents & _ & Hls & _).
  rewrite <- (app_nil_r rsegs) in Hscan at 1.
  rewrite <- (app_nil_r rsegs) in Hls.
  pose proof (scan_under _ _ _ _ Hwf Hr _ [] _ _ (Forall_nil _) Hls Hscan) as H.
  apply (proj1 (Forall_forall _ _) H) in He as (d & _ & more & Hv & Hrel).
  simpl app in Hrel.
  destruct (exists_last (l := Dirent.name d :: more) ltac:(discriminate))
    as (l & nm & El).
  rewrite El in Hrel, Hv. apply Forall_app in Hv as [Hl Hnm].
  inversion Hnm as [|? ? Hnm' _]; subst.
  destruct l as [|a l].
  - left. rewrite Hrel. now apply dirname_name.
  - right. rewrite Hrel, dirname_join by (auto; discriminate).
    rewrite split_join; auto using validNames_noSep. discriminate.
Qed.

End Complements.

(** ** The root of a run *)

Lemma split_all_noSep (s : string) :
  Forall (fun n => noSep n = true) (Js.split Path.sepChar s).
Proof.
  induction s as [|c s IH]; simpl; [repeat constructor|].
  destruct (Ascii.eqb c Path.sepChar) eqn:E; [now constructor|].
  destruct (Js.split Path.sepChar s) as [|h t]; inversion IH; subst;
    constructor; simpl; try rewrite E; auto.
Qed.

Lemma normalizeSegments_below_root (l res : list string) :
  Forall (fun n => noSep n = true) l -> validNames res ->
  validNames (Path.normalizeSegments false l res).
Proof.
  revert res. induction l as [|s l IH]; intros res Hl Hres; simpl.
  - now apply Forall_rev.
  - inversion Hl as [|? ? Hs Hl']; subst.
    destruct (String.eqb s "") eqn:E1; simpl; [now apply IH|].
    destruct (String.eqb s ".") eqn:E2; simpl; [now apply IH|].
    destruct (String.eqb s "..") eqn:E3.
    + destruct res as [|top res]; [now apply IH|].
      inversion Hres; subst.
      destruct (String.eqb top ".."); apply IH; auto.
    + apply IH; [assumption|]. constructor; [|assumption].
      unfold validName. now rewrite E1, E2, E3, Hs.
Qed.

(** [path.resolve] returns the absolute path of valid segments that the
    properties above take as the root of the scan. *)
Lemma resolve_valid (cwd arg : string) :
  exists rsegs, validNames rsegs /\ Path.resolve cwd arg = absolute rsegs.
Proof.
  unfold Path.resolve, Path.normalizeString, absolute.
  eexists. split; [|reflexivity].
  apply normalizeSegments_below_root; [apply split_all_noSep | constructor].
Qed.

(** * Further properties of [run] and [findMarkdownRecursive] *)

(** ** How a run ends *)

Section RunEnds.

Variable localeCompare : string -> string -> Z.
Variable cwd : string.
Variable fs : FileSystem.



End RunEnds.


(** ** The warnings of a pass *)

Section Warnings.

Variable fs : FileSystem.

Lemma addParentHeaders_warned parts st :
  warned (addParentHeaders parts st) = warned st.
Proof.
  unfold addParentHeaders. generalize "". revert st.
  induction parts as [|part parts IH]; intros st cum; [reflexivity|].
  change (fold_left (fun acc part => addParentHeader part acc)
            (part :: parts) (cum, st))
    with (fold_left (fun acc part => addParentHeader part acc) parts
            (addParentHeader part (cum, st))).
  rewrite addParentHeader_step. cbv zeta.
  destruct (negb _); now rewrite IH.
Qed.

Lemma directoryHeaders_warned info st :
  warned (directoryHeaders info st) = warned st.
Proof.
  unfold directoryHeaders. destruct (isDirectory info && _); [reflexivity|].
  destruct (negb (isDirectory info) && _ && _); [|reflexivity].
  simpl. apply addParentHeaders_warned.
Qed.

Lemma processInfo_warned st info :
  warned (processInfo fs st info) =
  warned st ++ (if unreadable fs info then [fullPath info] else []).
Proof.
  unfold processInfo, fileSection, unreadable.
  destruct (isDirectory info); simpl.
  - now rewrite directoryHeaders_warned, app_nil_r.
  - destruct (readFile fs (fullPath info)); simpl;
      now rewrite directoryHeaders_warned, ?app_nil_r.
Qed.

Lemma fold_warned fileInfos st :
  warned (fold_left (processInfo fs) fileInfos st) =
  warned st ++ map fullPath (filter (unreadable fs) fileInfos).
Proof.
  revert st. induction fileInfos as [|info rest IH]; intros st; simpl.
  - now rewrite app_nil_r.
  - rewrite IH, processInfo_warned.
    destruct (unreadable fs info); simpl;
      now rewrite <- ?app_assoc, ?app_nil_r.
Qed.

Lemma assemble_warned fileInfos :
  warned (assemble fs fileInfos)
  = map fullPath (filter (unreadable fs) fileInfos).
Proof. unfold assemble. now rewrite fold_warned. Qed.

Variable localeCompare : string -> string -> Z.
Variable cwd : string.

(** X3: a run whose scan succeeds logs the scan and then warns once for
    each document of the list whose content cannot be read, in the order of
    the list and with the full path of the document; it warns for nothing
    else, and what follows is the write and the message of success, or the
    error message and [process.exit(1)] when the write fails. *)
Theorem X3_warnings_are_the_unreadable fuel arg fileInfos :
  stat fs (Path.resolve cwd arg) = StatDirectory ->
  findMarkdownRecursive localeCompare cwd fs fuel
    (Path.resolve cwd arg) (Path.resolve cwd arg) = Ok fileInfos ->
  exists rest t,
    run localeCompare cwd fs fuel [arg] =
    Some (ConsoleLog ("Scanning directory: " +++ Path.resolve cwd arg)
          :: map (fun e => warning (fullPath e))
               (filter (unreadable fs) fileInfos)
          ++ rest, t)
    /\ ((t = Returned
         /\ rest = [WriteFile (Path.join cwd OUTPUT_FILENAME)
                      (finalOutput (assemble fs fileInfos));
                    ConsoleLog
                      ("Successfully concatenated markdown files into: "
                       +++ Path.join cwd OUTPUT_FILENAME)])
        \/ (t = Exited 1
            /\ rest = [ConsoleError "An error occurred during processing:"])).
Proof.
  intros Hstat Hscan. unfold run. rewrite Hstat, Hscan.
  rewrite assemble_warned, map_map.
  destruct (writeFile fs _ _); eexists; eexists; split; try reflexivity;
    [left | right]; now split.
Qed.

End Warnings.

(** The run over [fsDeep]: one warning, for x/y/z.md. *)
Lemma X3_warnings_are_the_unreadable_witness :
  exists rest t,
    run Collation.localeCompare "/w" fsDeep 3 ["/r"] =
    Some (ConsoleLog "Scanning directory: /r"
          :: [warning "/r/x/y/z.md"] ++ rest, t)
    /\ ((t = Returned
         /\ rest = [WriteFile (Path.join "/w" OUTPUT_FILENAME)
                      (finalOutput
                         (assemble fsDeep
                            [mkFileInfo "/r/x" "x" true "x";
                             mkFileInfo "/r/x/y" "x/y" true "y";
                             mkFileInfo "/r/x/y/z.md" "x/y/z.md" false "z.md"]));
                    ConsoleLog
                      ("Successfully concatenated markdown files into: "
                       +++ Path.join "/w" OUTPUT_FILENAME)])
        \/ (t = Exited 1
            /\ rest = [ConsoleError "An error occurred during processing:"])).
Proof.
  apply (X3_warnings_are_the_unreadable fsDeep Collation.localeCompare "/w"
           3 "/r"
           [mkFileInfo "/r/x" "x" true "x"; mkFileInfo "/r/x/y" "x/y" true "y";
            mkFileInfo "/r/x/y/z.md" "x/y/z.md" false "z.md"]);
    reflexivity.
Defined.

(** ** The directories that a scan visits *)

Section Visits.

Variable localeCompare : string -> string -> Z.
Variable cwd : string.
Variable fs : FileSystem.

Local Abbreviation scan := (findMarkdownRecursive localeCompare cwd fs).
Local Abbreviation entry := (entryOf cwd).

Lemma visited_trans a b c :
  visited fs a b -> visited fs b c -> visited fs a c.
Proof.
  intros Hab Hbc. induction Hbc; [assumption|].
  eapply visited_child; eauto.
Qed.

(** A successful scan has scanned every directory it visits, and the list
    of each of them is part of the list of the whole. *)
Lemma visited_scanned fuel rootDir fileInfos p :
  scan fuel rootDir rootDir = Ok fileInfos ->
  visited fs rootDir p ->
  exists f r, scan f p rootDir = Ok r /\ incl r fileInfos.
Proof.
  intros Hscan Hv. induction Hv as [|p dirents d Hv IH Hls Hd Hdir].
  - exists fuel, fileInfos. split; [assumption | apply incl_refl].
  - destruct IH as (f & r & Hr & Hincl).
    apply scan_listing in Hr as (f' & dirents' & -> & Hls' & Hloop).
    rewrite Hls in Hls'. injection Hls' as <-.
    apply (sort_In (compareDirents localeCompare)) in Hd.
    apply in_split in Hd as (l1 & l2 & E). rewrite E in Hloop.
    apply forDirents_split in Hloop as (r1 & block & r2 & _ & Hb & _ & ->).
    rewrite visit_directory in Hb by assumption.
    destruct (scan f' (Path.join p (Dirent.name d)) rootDir) as [sub| |] eqn:Hsub;
      [|discriminate..].
    injection Hb as <-. exists f', sub. split; [exact Hsub|].
    intros e He. apply Hincl. apply in_or_app. right.
    apply in_or_app. left. now right.
Qed.

(** Every entry of a list is the entry of a kept child of a directory that
    the scan visits. *)
Lemma scan_origin fuel p rootDir r :
  scan fuel p rootDir = Ok r ->
  Forall (fun e => exists p' dirents d,
            visited fs p p' /\ readdir fs p' = Some dirents
            /\ In d dirents /\ kept d = true
            /\ e = entry p' rootDir d) r.
Proof.
  revert p r. induction fuel as [|fuel IH]; intros p r Hscan;
    [discriminate|].
  apply scan_listing in Hscan as (f & dirents & [= <-] & Hls & Hloop).
  revert Hloop. apply forDirents_Forall; [| |constructor].
  - intros d sub Hd Hdir Hsub. apply sort_In in Hd.
    apply IH in Hsub. eapply Forall_impl; [|exact Hsub].
    intros e (p' & ds & d' & Hv & H).
    exists p', ds, d'. split; [|exact H].
    eapply visited_trans; [|exact Hv].
    eapply visited_child; eauto. constructor.
  - intros d Hd Hk. apply sort_In in Hd.
    exists p, dirents, d. repeat split; auto. constructor.
Qed.


(** X5: the list of a successful scan holds exactly the entries of the
    kept children, sub-directories and qualifying files, of the directories
    that the scan visits. *)
Theorem X5_list_is_the_kept_children fuel rootDir fileInfos e :
  scan fuel rootDir rootDir = Ok fileInfos ->
  (In e fileInfos <->
   exists p dirents d,
     visited fs rootDir p /\ readdir fs p = Some dirents
     /\ In d dirents /\ kept d = true
     /\ e = entry p rootDir d).
Proof.
  intros Hscan. split.
  - intros He. exact (proj1 (Forall_forall _ _) (scan_origin _ _ _ _ Hscan) e He).
  - intros (p & dirents & d & Hv & Hls & Hd & Hk & ->).
    destruct (visited_scanned _ _ _ _ Hscan Hv) as (f & r & Hr & Hincl).
    apply Hincl. eapply scan_kept; eauto.
Qed.

End Visits.



Lemma X5_list_is_the_kept_children_witness :
  In (mkFileInfo "/r/a/y.md" "a/y.md" false "y.md")
     [mkFileInfo "/r/a" "a" true "a"; mkFileInfo "/r/a/b" "a/b" true "b";
      mkFileInfo "/r/a/b/x.md" "a/b/x.md" false "x.md";
      mkFileInfo "/r/a/y.md" "a/y.md" false "y.md"]
  <-> exists p dirents d,
        visited fsNested "/r" p /\ readdir fsNested p = Some dirents
        /\ In d dirents /\ kept d = true
        /\ mkFileInfo "/r/a/y.md" "a/y.md" false "y.md" = entryOf "/w" p "/r" d.
Proof.
  apply (X5_list_is_the_kept_children Collation.localeCompare "/w" fsNested 3
           "/r" _ (mkFileInfo "/r/a/y.md" "a/y.md" false "y.md")).
  reflexivity.
Defined.

(** ** The output over the list of the scanner *)

Lemma startsWith_ancestor (segs more : list string) (k : nat) :
  1 <= k <= List.length segs ->
  Js.startsWith (Js.join "/" (segs ++ more)) (Js.join "/" (firstn k segs)) = true.
Proof.
  intros Hk. rewrite <- (firstn_skipn k segs) at 1. rewrite <- app_assoc.
  assert (Hne : firstn k segs <> []).
  { destruct segs as [|a segs]; simpl in Hk; [lia|].
    destruct k; [lia|]. discriminate. }
  destruct (skipn k segs ++ more) as [|x l] eqn:E.
  - rewrite app_nil_r. apply startsWith_refl.
  - rewrite join_app by (auto; discriminate). apply startsWith_append.
Qed.

Lemma filter_none {A} (f : A -> bool) (l : list A) :
  (forall x, In x l -> f x = false) -> filter f l = [].
Proof.
  induction l as [|a l IH]; intros H; [reflexivity|]. simpl.
  rewrite (H a (or_introl eq_refl)). apply IH. intros; apply H; now right.
Qed.

(** When the last headered directory is at or below the directory, the
    reconciliation loop pushes nothing. *)
Lemma addParentHeaders_below (segs more : list string) (st : AssemblerState) :
  validNames segs -> segs <> [] ->
  lastProcessedDirRelative st = Js.join "/" (segs ++ more) ->
  addParentHeaders (Js.split Path.sepChar (Js.join "/" segs)) st = st.
Proof.
  intros Hs Hne Hlast. rewrite split_join by auto using validNames_noSep.
  unfold addParentHeaders.
  rewrite (addParentHeaders_fold [] segs st "" Hs eq_refl).
  rewrite filter_none.
  - simpl. rewrite app_nil_r. now destruct st.
  - intros prefix Hin. apply in_map_iff in Hin as (k & <- & Hk).
    apply in_seq in Hk. simpl app. rewrite Hlast.
    rewrite startsWith_ancestor; [reflexivity | simpl in Hk; lia].
Qed.

Section Output.

Variable localeCompare : string -> string -> Z.
Variable cwd : string.
Variable fs : FileSystem.
Variable rsegs : list string.
Hypothesis fs_wellFormed : wellFormed fs.
Hypothesis rsegs_valid : validNames rsegs.

Local Abbreviation rootDir := (absolute rsegs).
Local Abbreviation scan := (findMarkdownRecursive localeCompare cwd fs).
Local Abbreviation entry := (entryOf cwd).
Local Abbreviation pass := (fold_left (processInfo fs)).

Lemma dirname_entry (segs : list string) (n : string) :
  validNames segs -> validName n = true ->
  Path.dirname (Js.join "/" (segs ++ [n])) = directoryPath segs.
Proof.
  intros Hs Hn. destruct segs as [|a segs].
  - now apply dirname_name.
  - apply dirname_join; auto. discriminate.
Qed.

Lemma directoryPath_not_child (segs : list string) (n : string) :
  validNames segs -> validName n = true ->
  directoryPath segs <> Js.join "/" (segs ++ [n]).
Proof.
  intros Hs Hn E. destruct segs as [|a segs].
  - symmetry in E. revert E. apply join_not_dot; [now constructor | discriminate].
  - apply join_injective in E; auto using validNames_snoc.
    apply (f_equal (@List.length string)) in E.
    rewrite length_app in E. simpl in E. lia.
Qed.

Lemma fileSection_output info st :
  isDirectory info = false ->
  outputContent (fileSection fs info st)
  = outputContent st ++ entryFragments fs info.
Proof.
  intros Hdoc. unfold fileSection, entryFragments. rewrite Hdoc. simpl.
  destruct (readFile fs (fullPath info)); simpl; now rewrite <- !app_assoc.
Qed.

(** A document met while the last headered directory is its parent or a
    path below its parent. *)
Lemma processInfo_document (segs : list string) (n : string) e st :
  validNames segs -> validName n = true ->
  isDirectory e = false ->
  relativePath e = Js.join "/" (segs ++ [n]) ->
  lastProcessedDirRelative st = directoryPath segs
  \/ (exists n' more, validNames (n' :: more)
        /\ lastProcessedDirRelative st = Js.join "/" (segs ++ n' :: more)) ->
  outputContent (processInfo fs st e) = outputContent st ++ entryFragments fs e
  /\ (lastProcessedDirRelative (processInfo fs st e) = directoryPath segs
      \/ lastProcessedDirRelative (processInfo fs st e)
         = lastProcessedDirRelative st).
Proof.
  intros Hs Hn Hdoc Hrel Hlast. unfold processInfo.
  rewrite fileSection_output, fileSection_last by assumption.
  assert (H : outputContent (directoryHeaders e st) = outputContent st
              /\ (lastProcessedDirRelative (directoryHeaders e st)
                  = directoryPath segs
                  \/ lastProcessedDirRelative (directoryHeaders e st)
                     = lastProcessedDirRelative st)).
  { unfold directoryHeaders. rewrite Hdoc, Hrel, dirname_entry by assumption.
    simpl andb.
    destruct (String.eqb_spec (directoryPath segs) (lastProcessedDirRelative st))
      as [E|E]; simpl; [auto|].
    destruct segs as [|a segs]; [simpl; auto|].
    change (String.eqb (directoryPath (a :: segs)) ".")
      with (String.eqb (Js.join "/" (a :: segs)) ".").
    rewrite (proj2 (String.eqb_neq _ _))
      by (apply join_not_dot; auto; discriminate).
    simpl negb. cbv iota.
    destruct Hlast as [Hlast | (n' & more & _ & Hlast)]; [congruence|].
    change (directoryPath (a :: segs)) with (Js.join "/" (a :: segs)).
    rewrite (addParentHeaders_below (a :: segs) (n' :: more));
      auto; discriminate. }
  destruct H as [Hout Hl]. now rewrite Hout.
Qed.

(** The loop over the children of one directory, [recurse] being what is
    known of the scans of the sub-directories. *)
Lemma forDirents_output f (segs : list string) (l : list Dirent.t) :
  validNames segs ->
  (forall (segs' : list string) sub st,
     validNames segs' ->
     scan f (absolute (rsegs ++ segs')) rootDir = Ok sub ->
     lastProcessedDirRelative st = directoryPath segs' ->
     outputContent (pass sub st)
     = outputContent st ++ flat_map (entryFragments fs) sub
     /\ (lastProcessedDirRelative (pass sub st) = directoryPath segs'
         \/ exists n more, validNames (n :: more)
              /\ lastProcessedDirRelative (pass sub st)
                 = Js.join "/" (segs' ++ n :: more))) ->
  forall (seen : list string) r st,
    (forall d, In d l -> validName (Dirent.name d) = true) ->
    NoDup (map Dirent.name l) ->
    (forall d, In d l -> ~ In (Dirent.name d) seen) ->
    forDirents
      (visit cwd (fun p => scan f p rootDir) (absolute (rsegs ++ segs)) rootDir)
      l [] = Ok r ->
    lastProcessedDirRelative st = directoryPath segs
    \/ (exists n more, In n seen /\ validNames (n :: more)
          /\ lastProcessedDirRelative st = Js.join "/" (segs ++ n :: more)) ->
    outputContent (pass r st)
    = outputContent st ++ flat_map (entryFragments fs) r
    /\ (lastProcessedDirRelative (pass r st) = directoryPath segs
        \/ exists n more, validNames (n :: more)
             /\ lastProcessedDirRelative (pass r st)
                = Js.join "/" (segs ++ n :: more)).
Proof.
  intros Hs Hrec. induction l as [|d l IH]; intros seen r st Hvalid Hnd Hseen Hloop Hlast.
  - injection Hloop as <-. simpl. rewrite app_nil_r. split; [reflexivity|].
    destruct Hlast as [H | (n & more & _ & Hv & H)]; eauto.
  - assert (Hn : validName (Dirent.name d) = true) by (apply Hvalid; now left).
    inversion Hnd as [|? ? Hnotin Hnd']; subst.
    simpl in Hloop.
    destruct (visit cwd _ _ _ d []) as [block| |] eqn:Hblock; [|discriminate..].
    rewrite forDirents_results in Hloop.
    destruct (forDirents _ l []) as [rest| |] eqn:Hrest; [|discriminate..].
    injection Hloop as <-.
    rewrite fold_left_app, flat_map_app.
    assert (Hstep :
      outputContent (pass block st)
      = outputContent st ++ flat_map (entryFragments fs) block
      /\ (lastProcessedDirRelative (pass block st) = directoryPath segs
          \/ exists n more, In n (seen ++ [Dirent.name d])
               /\ validNames (n :: more)
               /\ lastProcessedDirRelative (pass block st)
                  = Js.join "/" (segs ++ n :: more))).
    { destruct (entry_paths cwd rsegs rsegs_valid segs d Hs Hn) as [_ Hrel].
      destruct (Dirent.isDirectory d) eqn:Hdir.
      - rewrite visit_directory in Hblock by assumption.
        rewrite join_absolute in Hblock by auto using validNames_app.
        rewrite <- app_assoc in Hblock.
        destruct (scan f _ rootDir) as [sub| |] eqn:Hsub; [|discriminate..].
        injection Hblock as <-.
        assert (Hne : relativePath (entry (absolute (rsegs ++ segs)) rootDir d)
                      <> lastProcessedDirRelative st).
        { rewrite Hrel. intros E.
          destruct Hlast as [H | (n' & more & Hin & Hv & H)]; rewrite H in E.
          - symmetry in E. revert E. now apply directoryPath_not_child.
          - apply join_injective in E; auto using validNames_snoc, validNames_app.
            apply app_inv_head in E. injection E as E _.
            apply (Hseen d (or_introl eq_refl)). now rewrite E. }
        simpl fold_left.
        assert (Hdirstep :
          processInfo fs st (entry (absolute (rsegs ++ segs)) rootDir d)
          = mkState
              (outputContent st
               ++ [dirHeader (relativePath (entry (absolute (rsegs ++ segs)) rootDir d))])
              (relativePath (entry (absolute (rsegs ++ segs)) rootDir d))
              (warned st)).
        { unfold processInfo, fileSection, directoryHeaders.
          cbn [isDirectory entryOf]. rewrite Hdir.
          apply String.eqb_neq in Hne. cbn [relativePath entryOf] in Hne |- *.
          rewrite Hne. reflexivity. }
        rewrite Hdirstep.
        destruct (Hrec (segs ++ [Dirent.name d]) sub
                    (mkState
                       (outputContent st
                        ++ [dirHeader (relativePath (entry (absolute (rsegs ++ segs)) rootDir d))])
                       (relativePath (entry (absolute (rsegs ++ segs)) rootDir d))
                       (warned st)))
          as [Hout Hl].
        + now apply validNames_snoc.
        + exact Hsub.
        + cbn [lastProcessedDirRelative]. rewrite Hrel. now destruct segs.
        + split.
          * rewrite Hout. cbn [outputContent flat_map].
            assert (Hfrag :
              entryFragments fs (entry (absolute (rsegs ++ segs)) rootDir d)
              = [dirHeader (relativePath (entry (absolute (rsegs ++ segs)) rootDir d))]).
            { unfold entryFragments, entryOf. cbn [isDirectory]. now rewrite Hdir. }
            rewrite Hfrag, <- app_assoc. reflexivity.
          * right.
            destruct Hl as [H | (n' & more & Hv & H)].
            -- exists (Dirent.name d), []. repeat split.
               ++ apply in_or_app. right. now left.
               ++ now constructor.
               ++ rewrite H. now destruct segs.
            -- exists (Dirent.name d), (n' :: more). repeat split.
               ++ apply in_or_app. right. now left.
               ++ now constructor.
               ++ rewrite H, <- app_assoc. reflexivity.
      - rewrite visit_other in Hblock by assumption.
        destruct (Dirent.isFile d && qualifies (Dirent.name d)).
        + injection Hblock as <-. simpl fold_left.
          destruct (processInfo_document segs (Dirent.name d)
                      (entry (absolute (rsegs ++ segs)) rootDir d) st)
            as [Hout Hl]; auto.
          * destruct Hlast as [H | (n' & more & _ & Hv & H)]; eauto.
          * split; [simpl; now rewrite app_nil_r|].
            destruct Hl as [H | H]; [now left|]. rewrite H.
            destruct Hlast as [H' | (n' & more & Hin & Hv & H')]; [now left|].
            right. exists n', more. repeat split; auto.
            apply in_or_app. now left.
        + injection Hblock as <-. simpl. rewrite app_nil_r. split; [reflexivity|].
          destruct Hlast as [H' | (n' & more & Hin & Hv & H')]; [now left|].
          right. exists n', more. repeat split; auto.
          apply in_or_app. now left. }
    destruct Hstep as [Hout1 Hlast1].
    destruct (IH (seen ++ [Dirent.name d]) rest (pass block st)) as [Hout2 Hlast2];
      auto.
    + intros d' Hd'. apply Hvalid. now right.
    + intros d' Hd' Hin. apply in_app_or in Hin as [Hin | [E | []]].
      * apply (Hseen d'); [now right | assumption].
      * apply Hnotin. rewrite E. now apply in_map.
    + split; [|exact Hlast2]. now rewrite Hout2, Hout1, <- app_assoc.
Qed.

Lemma scan_output fuel :
  forall (segs : list string) r st,
    validNames segs ->
    scan fuel (absolute (rsegs ++ segs)) rootDir = Ok r ->
    lastProcessedDirRelative st = directoryPath segs ->
    outputContent (pass r st)
    = outputContent st ++ flat_map (entryFragments fs) r
    /\ (lastProcessedDirRelative (pass r st) = directoryPath segs
        \/ exists n more, validNames (n :: more)
             /\ lastProcessedDirRelative (pass r st)
                = Js.join "/" (segs ++ n :: more)).
Proof.
  induction fuel as [|f IH]; intros segs r st Hs Hscan Hlast; [discriminate|].
  apply scan_listing in Hscan as (f' & dirents & [= <-] & Hls & Hloop).
  destruct (fs_wellFormed _ _ Hls) as [Hnd _].
  apply (forDirents_output f segs
           (Js.sort (compareDirents localeCompare) dirents) Hs IH [] r st).
  - intros d Hd. apply sort_In in Hd.
    eapply (listing_valid fs fs_wellFormed); eauto.
  - eapply Permutation_NoDup; [|exact Hnd].
    apply Permutation_map, sort_perm.
  - intros d _ [].
  - exact Hloop.
  - now left.
Qed.

(** X1: over the list that the scanner returns for a well-formed tree the
    reconciliation loop pushes no header.  The output is, entry after entry,
    the header of a directory, or the header of a document followed by its
    content and the separator, or by the error text: one directory header
    for each directory entry and none besides. *)
Theorem X1_output_is_entry_by_entry fuel fileInfos :
  scan fuel rootDir rootDir = Ok fileInfos ->
  outputContent (assemble fs fileInfos)
  = flat_map (entryFragments fs) fileInfos.
Proof.
  intros Hscan. rewrite <- (app_nil_r rsegs) in Hscan at 1.
  destruct (scan_output fuel [] fileInfos initialState (Forall_nil _) Hscan eq_refl)
    as [H _].
  exact H.
Qed.

End Output.

Lemma X1_output_is_entry_by_entry_witness :
  outputContent
    (assemble fsNested
       [mkFileInfo "/r/a" "a" true "a"; mkFileInfo "/r/a/b" "a/b" true "b";
        mkFileInfo "/r/a/b/x.md" "a/b/x.md" false "x.md";
        mkFileInfo "/r/a/y.md" "a/y.md" false "y.md"])
  = flat_map (entryFragments fsNested)
      [mkFileInfo "/r/a" "a" true "a"; mkFileInfo "/r/a/b" "a/b" true "b";
       mkFileInfo "/r/a/b/x.md" "a/b/x.md" false "x.md";
       mkFileInfo "/r/a/y.md" "a/y.md" false "y.md"].
Proof.
  apply (X1_output_is_entry_by_entry Collation.localeCompare "/w" fsNested
           ["r"] fsNested_wellFormed valid_root_r 3).
  reflexivity.
Defined.

(** ** The paths of the entries *)

Section EntryPaths.

Variable localeCompare : string -> string -> Z.
Variable cwd : string.
Variable fs : FileSystem.
Variable rsegs : list string.
Hypothesis fs_wellFormed : wellFormed fs.
Hypothesis rsegs_valid : validNames rsegs.

Local Abbreviation rootDir := (absolute rsegs).
Local Abbreviation scan := (findMarkdownRecursive localeCompare cwd fs).
Local Abbreviation entry := (entryOf cwd).

Lemma under_distinct (segs : list string) (n1 n2 : string) e1 e2 :
  validNames segs -> under segs n1 e1 -> under segs n2 e2 -> n1 <> n2 ->
  relativePath e1 <> relativePath e2.
Proof.
  intros Hs (m1 & V1 & E1) (m2 & V2 & E2) Hne E.
  rewrite E1, E2 in E. apply join_injective in E; auto using validNames_app.
  apply app_inv_head in E. now injection E.
Qed.

(** The relative paths of the result of a loop are pairwise distinct when
    those of the scans of the sub-directories are. *)
Lemma forDirents_NoDup f (segs : list string) (l : list Dirent.t) r :
  validNames segs ->
  (forall (segs' : list string) sub,
     validNames segs' ->
     scan f (absolute (rsegs ++ segs')) rootDir = Ok sub ->
     NoDup (map relativePath sub)) ->
  (forall d, In d l -> validName (Dirent.name d) = true) ->
  NoDup (map Dirent.name l) ->
  forDirents
    (visit cwd (fun p => scan f p rootDir) (absolute (rsegs ++ segs)) rootDir)
    l [] = Ok r ->
  NoDup (map relativePath r).
Proof.
  intros Hs Hrec. revert r.
  induction l as [|d l IH]; intros r Hvalid Hnd Hloop.
  - injection Hloop as <-. constructor.
  - assert (Hn : validName (Dirent.name d) = true) by (apply Hvalid; now left).
    inversion Hnd as [|? ? Hnotin Hnd']; subst.
    assert (Hone := forDirents_under localeCompare cwd fs rsegs fs_wellFormed
                      rsegs_valid f segs [d]).
    simpl in Hloop, Hone.
    destruct (visit cwd _ _ _ d []) as [block| |] eqn:Hblock; [|discriminate..].
    specialize (Hone block Hs).
    rewrite forDirents_results in Hloop.
    destruct (forDirents _ l []) as [rest| |] eqn:Hrest; [|discriminate..].
    injection Hloop as <-.
    assert (Hub : Forall (under segs (Dirent.name d)) block).
    { eapply Forall_impl; [|apply Hone; [|reflexivity]].
      - intros e (d' & [<- | []] & Hu). exact Hu.
      - intros d' [<- | []]. exact Hn. }
    assert (Hur := forDirents_under localeCompare cwd fs rsegs fs_wellFormed
                     rsegs_valid f segs l rest Hs
                     (fun d' Hd' => Hvalid d' (or_intror Hd')) Hrest).
    rewrite map_app. apply NoDup_app.
    + destruct (entry_paths cwd rsegs rsegs_valid segs d Hs Hn) as [_ Hrel].
      destruct (Dirent.isDirectory d) eqn:Hdir.
      * rewrite visit_directory in Hblock by assumption.
        rewrite join_absolute in Hblock by auto using validNames_app.
        rewrite <- app_assoc in Hblock.
        destruct (scan f _ rootDir) as [sub| |] eqn:Hsub; [|discriminate..].
        injection Hblock as <-. rewrite map_cons. constructor.
        -- intros Hin. apply in_map_iff in Hin as (e & E & He).
           destruct (scan_listing _ _ _ _ _ _ _ Hsub) as (f' & ds & _ & Hls & _).
           pose proof (scan_under _ _ _ _ fs_wellFormed rsegs_valid _ _ _ _
                         (validNames_snoc _ _ Hs Hn) Hls Hsub) as Hu.
           apply (proj1 (Forall_forall _ _) Hu) in He as (d' & _ & more & Hv & He).
           rewrite He, Hrel in E. apply join_injective in E;
             auto using validNames_snoc, validNames_app.
           apply (f_equal (@List.length string)) in E.
           rewrite !length_app in E. simpl in E. lia.
        -- eapply Hrec; [|exact Hsub]. now apply validNames_snoc.
      * rewrite visit_other in Hblock by assumption.
        destruct (_ && _); injection Hblock as <-; repeat constructor.
        intros [].
    + exact (IH rest (fun d' Hd' => Hvalid d' (or_intror Hd')) Hnd' eq_refl).
    + intros p H1 H2.
      apply in_map_iff in H1 as (e1 & <- & H1), H2 as (e2 & E & H2).
      apply (proj1 (Forall_forall _ _) Hub) in H1.
      apply (proj1 (Forall_forall _ _) Hur) in H2 as (d' & Hd' & H2).
      revert E. apply not_eq_sym. eapply under_distinct; eauto.
      intros E. apply Hnotin. rewrite E. now apply in_map.
Qed.

Lemma scan_NoDup fuel :
  forall (segs : list string) r,
    validNames segs ->
    scan fuel (absolute (rsegs ++ segs)) rootDir = Ok r ->
    NoDup (map relativePath r).
Proof.
  induction fuel as [|f IH]; intros segs r Hs Hscan; [discriminate|].
  apply scan_listing in Hscan as (f' & dirents & [= <-] & Hls & Hloop).
  destruct (fs_wellFormed _ _ Hls) as [Hnd _].
  apply (forDirents_NoDup f segs
           (Js.sort (compareDirents localeCompare) dirents) r Hs IH).
  - intros d Hd. apply sort_In in Hd.
    eapply (listing_valid fs fs_wellFormed); eauto.
  - eapply Permutation_NoDup; [|exact Hnd].
    apply Permutation_map, sort_perm.
  - exact Hloop.
Qed.

(** X6: in the list of a well-formed tree no relative path occurs twice:
    every directory and every document is listed once. *)
Theorem X6_relative_paths_are_distinct fuel fileInfos :
  findMarkdownRecursive localeCompare cwd fs fuel (absolute rsegs) (absolute rsegs)
  = Ok fileInfos ->
  NoDup (map relativePath fileInfos).
Proof.
  intros Hscan. rewrite <- (app_nil_r rsegs) in Hscan at 1.
  exact (scan_NoDup fuel [] fileInfos (Forall_nil _) Hscan).
Qed.

End EntryPaths.

Lemma X6_relative_paths_are_distinct_witness :
  NoDup (map relativePath
           [mkFileInfo "/r/a" "a" true "a"; mkFileInfo "/r/a/b" "a/b" true "b";
            mkFileInfo "/r/a/b/x.md" "a/b/x.md" false "x.md";
            mkFileInfo "/r/a/y.md" "a/y.md" false "y.md"]).
Proof.
  apply (X6_relative_paths_are_distinct Collation.localeCompare "/w" fsNested
           ["r"] fsNested_wellFormed valid_root_r 3).
  reflexivity.
Defined.

(** ** The fields of an entry *)

Lemma hasTrailingSep_join (x : string) (full : list string) :
  validNames full -> full <> [] ->
  Path.hasTrailingSep (x +++ Js.join "/" full) = false.
Proof.
  intros Hv Hne. destruct (exists_last Hne) as (l & nm & ->).
  apply Forall_app in Hv as [Hl Hnm]. inversion Hnm; subst.
  destruct l as [|a l].
  - now apply hasTrailingSep_append.
  - rewrite join_snoc by discriminate.
    rewrite <- !append_assoc. now apply hasTrailingSep_append.
Qed.

(** [path.join] of the root and a relative path of valid names. *)
Lemma join_absolute_path (rsegs full : list string) :
  validNames rsegs -> validNames full -> full <> [] ->
  Path.join (absolute rsegs) (Js.join "/" full) = absolute (rsegs ++ full).
Proof.
  intros Hr Hf Hne. unfold Path.join.
  change (String.eqb (absolute rsegs) "") with false.
  rewrite join_valid_nonempty by assumption.
  assert (Hq : Path.normalizeString (absolute rsegs +++ "/" +++ Js.join "/" full)
                 false
               = Js.join "/" (rsegs ++ full)).
  { destruct rsegs as [|a l].
    - unfold Path.normalizeString.
      change (Js.split Path.sepChar (absolute [] +++ "/" +++ Js.join "/" full))
        with ("" :: Js.split Path.sepChar (absolute full)).
      change (Path.normalizeSegments false
                ("" :: Js.split Path.sepChar (absolute full)) [])
        with (Path.normalizeSegments false
                (Js.split Path.sepChar (absolute full)) []).
      now apply (normalizeString_absolute full).
    - replace (absolute (a :: l) +++ "/" +++ Js.join "/" full)
        with (absolute ((a :: l) ++ full)).
      + apply normalizeString_absolute. now apply validNames_app.
      + unfold absolute. rewrite join_app by (auto; discriminate).
        now rewrite append_assoc. }
  unfold Path.normalize.
  change (String.eqb (absolute rsegs +++ "/" +++ Js.join "/" full) "") with false.
  change (Path.isAbsolute (absolute rsegs +++ "/" +++ Js.join "/" full)) with true.
  cbv zeta. simpl negb. rewrite Hq.
  rewrite join_valid_nonempty
    by (auto using validNames_app; now destruct rsegs, full).
  replace (absolute rsegs +++ "/" +++ Js.join "/" full)
    with ((absolute rsegs +++ "/") +++ Js.join "/" full) by apply append_assoc.
  now rewrite hasTrailingSep_join.
Qed.

Section EntryFields.

Variable localeCompare : string -> string -> Z.
Variable cwd : string.
Variable fs : FileSystem.
Variable rsegs : list string.
Hypothesis fs_wellFormed : wellFormed fs.
Hypothesis rsegs_valid : validNames rsegs.

Local Abbreviation rootDir := (absolute rsegs).
Local Abbreviation scan := (findMarkdownRecursive localeCompare cwd fs).
Local Abbreviation entry := (entryOf cwd).

(** Every entry lies at a non-empty path of valid names below the root. *)
Lemma scan_located fuel :
  forall (segs : list string) r,
    validNames segs ->
    scan fuel (absolute (rsegs ++ segs)) rootDir = Ok r ->
    Forall (fun e => exists full,
              validNames full /\ full <> []
              /\ relativePath e = Js.join "/" full
              /\ fullPath e = absolute (rsegs ++ full)
              /\ name e = last full "") r.
Proof.
  induction fuel as [|f IH]; intros segs r Hs Hscan; [discriminate|].
  apply scan_listing in Hscan as (f' & dirents & [= <-] & Hls & Hloop).
  revert Hloop. apply forDirents_Forall; [| |constructor].
  - intros d sub Hd Hdir Hsub. apply sort_In in Hd.
    assert (Hn : validName (Dirent.name d) = true)
      by (eapply (listing_valid fs fs_wellFormed); eauto).
    rewrite join_absolute in Hsub by auto using validNames_app.
    rewrite <- app_assoc in Hsub.
    eapply IH; [|exact Hsub]. now apply validNames_snoc.
  - intros d Hd _. apply sort_In in Hd.
    assert (Hn : validName (Dirent.name d) = true)
      by (eapply (listing_valid fs fs_wellFormed); eauto).
    destruct (entry_paths cwd rsegs rsegs_valid segs d Hs Hn) as [Hfull Hrel].
    exists (segs ++ [Dirent.name d]).
    split; [now apply validNames_snoc|]. split; [now destruct segs|].
    split; [exact Hrel|]. split; [exact Hfull|].
    simpl. now rewrite last_last.
Qed.

(** X7: for every entry of the list of a well-formed tree, the relative
    path is a path of valid names (never absolute, without "." or ".."),
    joining the root with it gives the full path back, and the name is its
    last segment. *)
Theorem X7_entry_fields_agree fuel fileInfos e :
  scan fuel rootDir rootDir = Ok fileInfos ->
  In e fileInfos ->
  validNames (Js.split Path.sepChar (relativePath e))
  /\ Path.join rootDir (relativePath e) = fullPath e
  /\ last (Js.split Path.sepChar (relativePath e)) "" = name e.
Proof.
  intros Hscan He. rewrite <- (app_nil_r rsegs) in Hscan at 1.
  pose proof (scan_located fuel [] fileInfos (Forall_nil _) Hscan) as H.
  apply (proj1 (Forall_forall _ _) H) in He
    as (full & Hv & Hne & Hrel & Hfull & Hname).
  rewrite Hrel, Hfull, Hname, split_join by auto using validNames_noSep.
  split; [assumption|]. split; [|reflexivity].
  now apply join_absolute_path.
Qed.

End EntryFields.

Lemma X7_entry_fields_agree_witness :
  validNames (Js.split Path.sepChar "a/b/x.md")
  /\ Path.join "/r" "a/b/x.md" = "/r/a/b/x.md"
  /\ last (Js.split Path.sepChar "a/b/x.md") "" = "x.md".
Proof.
  apply (X7_entry_fields_agree Collation.localeCompare "/w" fsNested ["r"]
           fsNested_wellFormed valid_root_r 3
           [mkFileInfo "/r/a" "a" true "a"; mkFileInfo "/r/a/b" "a/b" true "b";
            mkFileInfo "/r/a/b/x.md" "a/b/x.md" false "x.md";
            mkFileInfo "/r/a/y.md" "a/y.md" false "y.md"]
           (mkFileInfo "/r/a/b/x.md" "a/b/x.md" false "x.md")).
  - reflexivity.
  - right. right. now left.
Defined.

(** ** The order in which a directory is listed *)

Lemma sorted_unique {A} (cmp : A -> A -> Z) (l1 l2 : list A) :
  sortedBy cmp l1 -> sortedBy cmp l2 -> Permutation l1 l2 ->
  (forall a b, In a l1 -> In b l1 ->
     (cmp a b <= 0)%Z -> (cmp b a <= 0)%Z -> a = b) ->
  l1 = l2.
Proof.
  revert l2. induction l1 as [|a l1 IH]; intros l2 S1 S2 P Hanti.
  - now apply Permutation_nil in P.
  - destruct l2 as [|b l2];
      [apply Permutation_sym, Permutation_nil in P; discriminate|].
    destruct (sortedBy_inv _ _ _ S1) as [Ha S1'].
    destruct (sortedBy_inv _ _ _ S2) as [Hb S2'].
    assert (E : a = b).
    { assert (Hin_a : In a (b :: l2))
        by (eapply Permutation_in; [exact P | now left]).
      assert (Hin_b : In b (a :: l1))
        by (eapply Permutation_in; [exact (Permutation_sym P) | now left]).
      destruct Hin_a as [-> | Hin_a]; [reflexivity|].
      destruct Hin_b as [-> | Hin_b]; [reflexivity|].
      apply Hanti; simpl; auto. }
    subst b. f_equal. apply IH; auto.
    + now apply Permutation_cons_inv in P.
    + intros x y Hx Hy. apply Hanti; now right.
Qed.

Lemma NoDup_map_injective {A B} (f : A -> B) (l : list A) (a b : A) :
  NoDup (map f l) -> In a l -> In b l -> f a = f b -> a = b.
Proof.
  induction l as [|x l IH]; intros Hnd Ha Hb E; [contradiction|].
  simpl in Hnd. inversion Hnd as [|? ? Hnot Hnd']; subst.
  destruct Ha as [-> | Ha], Hb as [-> | Hb]; auto.
  - exfalso. apply Hnot. rewrite E. now apply in_map.
  - exfalso. apply Hnot. rewrite <- E. now apply in_map.
Qed.

Section ListingOrder.

Variable localeCompare : string -> string -> Z.
Variable cwd : string.
Variables fs1 fs2 : FileSystem.
Hypothesis localeCompare_consistent : consistent localeCompare.
Hypothesis fs1_wellFormed : wellFormed fs1.
Hypothesis fs1_tieFree : tieFree localeCompare fs1.
Hypothesis same : sameListings fs1 fs2.

Local Abbreviation compareD := (compareDirents localeCompare).

Lemma forDirents_ext (rec1 rec2 : string -> outcome (list FileInfo))
    dirPath rootDir l results :
  (forall p, rec1 p = rec2 p) ->
  forDirents (visit cwd rec1 dirPath rootDir) l results
  = forDirents (visit cwd rec2 dirPath rootDir) l results.
Proof.
  intros Hrec. revert results. induction l as [|d l IH]; intros results;
    [reflexivity|].
  simpl. unfold visit at 1 3. rewrite Hrec.
  destruct (Dirent.isDirectory d).
  - destruct (rec2 _); auto.
  - destruct (_ && _); auto.
Qed.

Lemma compareD_antisym p dirents d1 d2 :
  readdir fs1 p = Some dirents -> In d1 dirents -> In d2 dirents ->
  (compareD d1 d2 <= 0)%Z -> (compareD d2 d1 <= 0)%Z -> d1 = d2.
Proof.
  intros Hls H1 H2. unfold compareDirents.
  destruct (fs1_wellFormed _ _ Hls) as [Hnd _].
  destruct (Dirent.isDirectory d1) eqn:E1, (Dirent.isDirectory d2) eqn:E2;
    simpl; try lia; intros L1 L2;
    apply (NoDup_map_injective Dirent.name dirents); auto;
    apply (fs1_tieFree p dirents); auto;
    destruct localeCompare_consistent as [Hs _];
    specialize (Hs (Dirent.name d1) (Dirent.name d2));
    destruct (localeCompare (Dirent.name d1) (Dirent.name d2)),
      (localeCompare (Dirent.name d2) (Dirent.name d1));
    simpl in Hs; try discriminate; try lia.
Qed.

Lemma sort_same p l1 l2 :
  readdir fs1 p = Some l1 -> Permutation l1 l2 ->
  Js.sort compareD l1 = Js.sort compareD l2.
Proof.
  intros Hls P. apply (sorted_unique compareD).
  - apply sort_sorted;
      [apply compareD_total | apply compareD_trans]; assumption.
  - apply sort_sorted;
      [apply compareD_total | apply compareD_trans]; assumption.
  - rewrite <- (sort_perm compareD l1), <- (sort_perm compareD l2). exact P.
  - intros a b Ha Hb. apply sort_In in Ha, Hb.
    now apply (compareD_antisym p l1).
Qed.

(** X8: the list does not depend on the order in which [readdir] returns
    the children.  Two file systems that list the same children in every
    directory give the same result, list or failure, when the comparator is
    consistent and no two names of a listing compare as equal. *)
Theorem X8_listing_order_is_irrelevant fuel dirPath rootDir :
  findMarkdownRecursive localeCompare cwd fs1 fuel dirPath rootDir
  = findMarkdownRecursive localeCompare cwd fs2 fuel dirPath rootDir.
Proof.
  revert dirPath. induction fuel as [|f IH]; intros dirPath; [reflexivity|].
  simpl. specialize (same dirPath).
  destruct (readdir fs1 dirPath) as [l1|] eqn:H1,
           (readdir fs2 dirPath) as [l2|] eqn:H2; try contradiction;
    [|reflexivity].
  rewrite (sort_same dirPath l1 l2 H1 same).
  apply forDirents_ext. intros p. apply IH.
Qed.

End ListingOrder.

Lemma fsSub_wellFormed : wellFormed fsSub.
Proof. listings_ok. Qed.

Lemma fsSub_tieFree : tieFree Collation.localeCompare fsSub.
Proof.
  intros p dirents d1 d2 Hls. simpl in Hls.
  destruct (String.eqb p "/r"); [|destruct (String.eqb p "/r/sub")];
    try discriminate; injection Hls as <-; intros H1 H2;
    simpl in H1, H2;
    repeat match goal with
           | H : _ \/ _ |- _ => destruct H as [<- | H]
           | H : False |- _ => contradiction
           end;
    vm_compute; intros H; first [reflexivity | discriminate].
Qed.

Lemma fsSub_sameListings : sameListings fsSub fsSubReversed.
Proof.
  intros p. simpl.
  destruct (String.eqb p "/r"); [apply perm_swap|].
  destruct (String.eqb p "/r/sub"); [apply Permutation_refl | exact I].
Qed.

Lemma X8_listing_order_is_irrelevant_witness :
  findMarkdownRecursive Collation.localeCompare "/w" fsSub 3 "/r" "/r"
  = findMarkdownRecursive Collation.localeCompare "/w" fsSubReversed 3 "/r" "/r".
Proof.
  apply (X8_listing_order_is_irrelevant Collation.localeCompare "/w"
           fsSub fsSubReversed collation_consistent fsSub_wellFormed
           fsSub_tieFree fsSub_sameListings 3 "/r" "/r").
Defined.

(** ** Parents come first *)

Section Parents.

Variable localeCompare : string -> string -> Z.
Variable cwd : string.
Variable fs : FileSystem.
Variable rsegs : list string.
Hypothesis fs_wellFormed : wellFormed fs.
Hypothesis rsegs_valid : validNames rsegs.

Local Abbreviation rootDir := (absolute rsegs).
Local Abbreviation scan := (findMarkdownRecursive localeCompare cwd fs).
Local Abbreviation entry := (entryOf cwd).

(** X9: in the list of a well-formed tree every entry that does not lie
    directly in the root comes after the entry of its parent directory: a
    directory entry whose relative path is the directory part of the
    entry's relative path. *)
Theorem X9_parent_precedes fuel fileInfos e :
  scan fuel rootDir rootDir = Ok fileInfos ->
  In e fileInfos ->
  Path.dirname (relativePath e) = "."
  \/ exists parent,
       isDirectory parent = true
       /\ relativePath parent = Path.dirname (relativePath e)
       /\ precedes parent e fileInfos.
Proof.
  intros Hscan He.
  pose proof (scan_origin localeCompare cwd fs _ _ _ _ Hscan) as Horigin.
  apply (proj1 (Forall_forall _ _) Horigin) in He
    as (p & dirents & d & Hv & Hls & Hd & Hk & ->).
  assert (Hn : validName (Dirent.name d) = true)
    by (eapply (listing_valid fs fs_wellFormed); eauto).
  inversion Hv as [E | p0 ds0 d0 Hv0 Hls0 Hd0 Hdir0 E]; subst.
  - left. rewrite <- (app_nil_r rsegs) at 1.
    destruct (entry_paths cwd rsegs rsegs_valid [] d (Forall_nil _) Hn) as [_ Hrel].
    rewrite Hrel. now apply dirname_name.
  - right.
    destruct (visited_span _ _ _ _ fs_wellFormed rsegs_valid _ _ _ Hscan Hv0)
      as (segs & f & pre & r & post & -> & Hs & HR & Hr & Hout).
    assert (Hn0 : validName (Dirent.name d0) = true)
      by (eapply (listing_valid fs fs_wellFormed); eauto).
    destruct (child_span _ _ _ _ fs_wellFormed rsegs_valid _ _ _ _ _ _ _ _
                Hs HR Hr Hout Hls0 Hd0 Hdir0)
      as (before & after & PRE & sub & POST & f' & _ & HR' & Hsub & _).
    rewrite join_absolute in Hls |- * by auto using validNames_app.
    rewrite <- app_assoc in Hls |- *.
    assert (Hin : In (entry (absolute (rsegs ++ segs ++ [Dirent.name d0])) rootDir d)
                    sub)
      by (eapply scan_kept; eauto).
    apply in_split in Hin as (s1 & s2 & Esub).
    exists (entry (absolute (rsegs ++ segs)) rootDir d0).
    destruct (entry_paths cwd rsegs rsegs_valid segs d0 Hs Hn0) as [_ Hrel0].
    assert (Hs' : validNames (segs ++ [Dirent.name d0]))
      by now apply validNames_snoc.
    destruct (entry_paths cwd rsegs rsegs_valid _ d Hs' Hn) as [_ Hrel].
    rewrite <- app_assoc in Hrel.
    split; [exact Hdir0|]. split.
    + rewrite Hrel, Hrel0. rewrite app_assoc.
      symmetry. apply dirname_join; auto. now destruct segs.
    + exists PRE, s1, (s2 ++ POST). rewrite HR', Esub, <- app_assoc.
      reflexivity.
Qed.

End Parents.

Lemma X9_parent_precedes_witness :
  Path.dirname "a/b/x.md" = "."
  \/ exists parent,
       isDirectory parent = true
       /\ relativePath parent = Path.dirname "a/b/x.md"
       /\ precedes parent (mkFileInfo "/r/a/b/x.md" "a/b/x.md" false "x.md")
            [mkFileInfo "/r/a" "a" true "a"; mkFileInfo "/r/a/b" "a/b" true "b";
             mkFileInfo "/r/a/b/x.md" "a/b/x.md" false "x.md";
             mkFileInfo "/r/a/y.md" "a/y.md" false "y.md"].
Proof.
  apply (X9_parent_precedes Collation.localeCompare "/w" fsNested ["r"]
           fsNested_wellFormed valid_root_r 3
           [mkFileInfo "/r/a" "a" true "a"; mkFileInfo "/r/a/b" "a/b" true "b";
            mkFileInfo "/r/a/b/x.md" "a/b/x.md" false "x.md";
            mkFileInfo "/r/a/y.md" "a/y.md" false "y.md"]
           (mkFileInfo "/r/a/b/x.md" "a/b/x.md" false "x.md")).
  - reflexivity.
  - right. right. now left.
Defined.

(** ** What one entry appends *)

Section Appends.

Variable fs : FileSystem.

Lemma addParentHeaders_appends parts st :
  exists headers,
    Forall (fun h => exists p, h = dirHeader p) headers
    /\ outputContent (addParentHeaders parts st) = outputContent st ++ headers.
Proof.
  unfold addParentHeaders. generalize "". revert st.
  induction parts as [|part parts IH]; intros st cum.
  - exists []. split; [constructor | now rewrite app_nil_r].
  - change (fold_left (fun acc part => addParentHeader part acc)
              (part :: parts) (cum, st))
      with (fold_left (fun acc part => addParentHeader part acc) parts
              (addParentHeader part (cum, st))).
    rewrite addParentHeader_step. cbv zeta.
    destruct (negb _).
    + destruct (IH (push st (dirHeader
                 (if String.eqb cum "" then part else Path.join cum part)))
                 (if String.eqb cum "" then part else Path.join cum part))
        as (headers & Hh & E).
      eexists (_ :: headers). split; [constructor; eauto|].
      rewrite E. simpl. now rewrite <- app_assoc.
    + apply IH.
Qed.

(** X10: whatever the list and the state, an entry only appends to the
    output.  It appends directory headers, if any, and then, for a
    document, the file header followed by the content and the separator or
    by the error text; for a directory, nothing more. *)
Theorem X10_entry_appends st info :
  exists headers,
    Forall (fun h => exists p, h = dirHeader p) headers
    /\ outputContent (processInfo fs st info)
       = outputContent st ++ headers
         ++ (if isDirectory info then [] else entryFragments fs info).
Proof.
  unfold processInfo.
  assert (H : exists headers,
            Forall (fun h => exists p, h = dirHeader p) headers
            /\ outputContent (directoryHeaders info st)
               = outputContent st ++ headers).
  { unfold directoryHeaders. destruct (isDirectory info && _).
    - exists [dirHeader (relativePath info)]. split; [|reflexivity].
      constructor; eauto.
    - destruct (negb (isDirectory info) && _ && _).
      + simpl. apply addParentHeaders_appends.
      + exists []. split; [constructor | now rewrite app_nil_r]. }
  destruct H as (headers & Hh & E). exists headers. split; [exact Hh|].
  unfold fileSection, entryFragments.
  destruct (isDirectory info); simpl.
  - now rewrite E, app_nil_r.
  - destruct (readFile fs (fullPath info)); simpl; rewrite E;
      now rewrite <- !app_assoc.
Qed.

End Appends.

(** ** The names that qualify *)

Lemma substring_full (s : string) : substring 0 (String.length s) s = s.
Proof. induction s as [|c s IH]; simpl; [reflexivity | now rewrite IH]. Qed.

Lemma substring_split (s : string) (k : nat) :
  k <= String.length s ->
  s = substring 0 k s +++ substring k (String.length s - k) s.
Proof.
  revert k. induction s as [|c s IH]; intros k Hk; simpl in *.
  - now destruct k.
  - destruct k as [|k]; simpl.
    + now rewrite substring_full.
    + f_equal. apply IH. lia.
Qed.

Lemma substring_suffix (a b : string) :
  substring (String.length a) (String.length b) (a +++ b) = b.
Proof.
  induction a as [|c a IH]; simpl; [apply substring_full | exact IH].
Qed.

Lemma endsWith_spec (s suffix : string) :
  Js.endsWith s suffix = true <-> exists stem, s = stem +++ suffix.
Proof.
  unfold Js.endsWith. split.
  - destruct (Nat.leb_spec (String.length suffix) (String.length s)) as [Hle|];
      [|discriminate].
    intros H. apply String.eqb_eq in H.
    exists (substring 0 (String.length s - String.length suffix) s).
    rewrite (substring_split s (String.length s - String.length suffix)) at 1
      by lia.
    f_equal.
    replace (String.length s - (String.length s - String.length suffix))
      with (String.length suffix) by lia.
    exact H.
  - intros (stem & ->). rewrite append_length.
    rewrite (proj2 (Nat.leb_le _ _)) by lia.
    replace (String.length stem + String.length suffix - String.length suffix)
      with (String.length stem) by lia.
    rewrite substring_suffix. apply String.eqb_refl.
Qed.

Lemma toLowerCase_append (a b : string) :
  Js.toLowerCase (a +++ b) = Js.toLowerCase a +++ Js.toLowerCase b.
Proof. induction a as [|c a IH]; simpl; [reflexivity | now rewrite IH]. Qed.

Lemma toLowerCase_split (n u v : string) :
  Js.toLowerCase n = u +++ v ->
  exists a x, n = a +++ x /\ Js.toLowerCase a = u /\ Js.toLowerCase x = v.
Proof.
  revert n. induction u as [|c u IH]; intros n H.
  - exists "", n. auto.
  - destruct n as [|c0 n]; [discriminate|]. simpl in H.
    injection H as Hc H. apply IH in H as (a & x & -> & Ha & Hx).
    exists (String c0 a), x. simpl. now rewrite Hc, Ha.
Qed.

Lemma lowerChar_dot (c : ascii) : Js.lowerChar c = "."%char -> c = "."%char.
Proof.
  destruct c as [[] [] [] [] [] [] [] []]; vm_compute; intros H;
    first [reflexivity | discriminate].
Qed.

Lemma lowerChar_m (c : ascii) :
  Js.lowerChar c = "m"%char -> c = "m"%char \/ c = "M"%char.
Proof.
  destruct c as [[] [] [] [] [] [] [] []]; vm_compute; intros H;
    first [left; reflexivity | right; reflexivity | discriminate].
Qed.

Lemma lowerChar_d (c : ascii) :
  Js.lowerChar c = "d"%char -> c = "d"%char \/ c = "D"%char.
Proof.
  destruct c as [[] [] [] [] [] [] [] []]; vm_compute; intros H;
    first [left; reflexivity | right; reflexivity | discriminate].
Qed.

(** X11: the test of the scanner on a file name, the lowered name ends
    with ".md", holds exactly of the names that end with a dot, an m or M
    and a d or D; the name ".md" itself is one of them. *)
Theorem X11_qualifying_names (n : string) :
  Js.endsWith (Js.toLowerCase n) ".md" = true
  <-> exists stem c1 c2,
        n = stem +++ String "."%char (String c1 (String c2 EmptyString))
        /\ (c1 = "m"%char \/ c1 = "M"%char)
        /\ (c2 = "d"%char \/ c2 = "D"%char).
Proof.
  rewrite endsWith_spec. split.
  - intros (u & H). apply toLowerCase_split in H as (a & x & -> & _ & Hx).
    destruct x as [|c0 [|c1 [|c2 [|? ?]]]]; try discriminate.
    simpl in Hx. injection Hx as H0 H1 H2.
    apply lowerChar_dot in H0. subst c0.
    exists a, c1, c2. auto using lowerChar_m, lowerChar_d.
  - intros (stem & c1 & c2 & -> & H1 & H2).
    exists (Js.toLowerCase stem). rewrite toLowerCase_append. f_equal.
    destruct H1 as [-> | ->], H2 as [-> | ->]; reflexivity.
Qed.

(** ** Termination of the scan *)

Section Termination.

Variable localeCompare : string -> string -> Z.
Variable cwd : string.
Variable fs : FileSystem.

Local Abbreviation scan := (findMarkdownRecursive localeCompare cwd fs).

(** X12: on a tree whose directories nest at most [n] deep below
    [dirPath] the recursion of the scanner ends: with [n] levels of calls it
    returns a list or fails on a listing, and more levels give the same
    result. *)
Theorem X12_scan_ends n dirPath rootDir :
  depthWithin fs n dirPath ->
  scan n dirPath rootDir <> OutOfFuel
  /\ forall k, scan (n + k) dirPath rootDir = scan n dirPath rootDir.
Proof.
  intros H. apply (scan_total localeCompare cwd fs n dirPath rootDir) in H.
  split; [exact H|]. intros k. now apply scan_mono.
Qed.

End Termination.

Lemma fsNested_depth : depthWithin fsNested 3 "/r".
Proof.
  simpl. intros d [<- | []] _. simpl.
  intros d [<- | [<- | []]]; [discriminate|]. intros _. simpl.
  intros d [<- | []]. discriminate.
Qed.

Lemma X12_scan_ends_witness :
  findMarkdownRecursive Collation.localeCompare "/w" fsNested 3 "/r" "/r"
  <> OutOfFuel
  /\ forall k,
       findMarkdownRecursive Collation.localeCompare "/w" fsNested (3 + k) "/r" "/r"
       = findMarkdownRecursive Collation.localeCompare "/w" fsNested 3 "/r" "/r".
Proof.
  apply (X12_scan_ends Collation.localeCompare "/w" fsNested 3 "/r" "/r").
  exact fsNested_depth.
Defined.
